(** * Nuclear-exposure dashboard: data indices and playback

    A shallow embedding of the data layer of [src/unnamed/part_000] (the
    variant with the decade-change map) and of the parts it shares with
    [src/main.js]: [featureIso3], the body of [loadData] up to the calls
    that draw, the rank guard of [renderDetail] and the playback
    controller.

    Modelling conventions.
    - A JavaScript [Map] keyed by strings is a [gmap string _]; a [Map]
      keyed by numbers is a [gmap Z _].  [m.set(k, v)] is [<[k:=v]> m],
      [m.get(k)] is [m !! k] with [None] for [undefined].
    - Strings are ASCII strings.  Integers print through a template
      literal as plain decimals ([pretty]), which is what JavaScript does
      below 10^21.
    - [year], [buffer_km] and finite [pop_near] values are integers
      (exact in a double below 2^53); [pct_near] is a rational.  A field
      that may be [null] is an [option].  The non-finite numbers that
      [pop_near] can hold after [d3.autoType] are kept ([num]); a [NaN]
      percentage, on which the comparator of the rank sort is not an
      ordering, is left out.
    - [d3.group], [d3.ascending], [d3.descending] and
      [Array.prototype.sort] come from outside the repository and follow
      their documented behaviour.
    - Writes to the page (labels, slider position, redraws) are left
      out; what is kept of the browser is the set of active intervals.
    - A method call on [null] throws a [TypeError]; a stretch of code
      that can reach one answers an [outcome].  Number formatting
      ([toFixed]) is left out, and no statement is made about printed
      digits. *)

From Stdlib Require Import ZArith QArith Lia Ascii.
From stdpp Require Import base list strings gmap pretty sorting.

Close Scope Q_scope.

(** ** JavaScript numbers that may be non-finite

    [NaN] also stands for what [ToNumber] turns into [NaN], such as the
    [undefined] of a missing column. *)
Inductive num : Type :=
  | Fin (z : Z)
  | PosInf
  | NegInf
  | NaN.

(** [ToNumber] on a field that is a number or [null]: [null] becomes 0. *)
Definition to_number (v : option num) : num :=
  match v with
  | Some n => n
  | None => Fin 0
  end.

(** [a - b] on numbers. *)
Definition num_sub (a b : num) : num :=
  match a, b with
  | Fin x, Fin y => Fin (x - y)%Z
  | NaN, _ | _, NaN => NaN
  | PosInf, PosInf | NegInf, NegInf => NaN
  | PosInf, _ => PosInf
  | NegInf, _ => NegInf
  | Fin _, PosInf => NegInf
  | Fin _, NegInf => PosInf
  end.

Definition isFinite (a : num) : bool :=
  match a with
  | Fin _ => true
  | _ => false
  end.

(** [if (!isFinite(delta)) delta = null]: what is left is an integer or
    [null]. *)
Definition finite_or_null (a : num) : option Z :=
  match a with
  | Fin z => if isFinite a then Some z else None
  | _ => None
  end.

(** ** Composite string keys *)

Definition keyExposure (iso3 : string) (year buffer : Z) : string :=
  iso3 +:+ "_" +:+ pretty year +:+ "_" +:+ pretty buffer.

Definition keyYearBuffer (year buffer : Z) : string :=
  pretty year +:+ "_" +:+ pretty buffer.

(** [has_char c s]: the character [c] occurs in [s]. *)
Fixpoint has_char (c : ascii) (s : string) : bool :=
  match s with
  | EmptyString => false
  | String a s' => if decide (a = c) then true else has_char c s'
  end.

(** [all_chars P s]: every character of [s] satisfies [P]. *)
Fixpoint all_chars (P : ascii → bool) (s : string) : bool :=
  match s with
  | EmptyString => true
  | String a s' => P a && all_chars P s'
  end.

(** A printed integer is made of digits and at most a sign. *)
Definition digit_or_sign (a : ascii) : bool :=
  bool_decide (a ∈ ["0"; "1"; "2"; "3"; "4"; "5"; "6"; "7"; "8"; "9"; "-"]%char).

(** ** Rows of the country exposure table *)

Record row : Type := Row {
  iso3 : string;
  country : string;
  year : Z;
  buffer_km : Z;
  pct_near : option Q;
  pop_near : option num;
  num_plants : option Z
}.

Definition years : list Z := [1990; 2000; 2010]%Z.
Definition buffers : list Z := [30; 75; 300]%Z.

(** The [(entity, year, buffer)] triple of a row. *)
Definition key3 (d : row) : string * Z * Z := (iso3 d, year d, buffer_km d).

(** [countryRows.filter(d => buffers.includes(d.buffer_km))] *)
Definition keep_buffers (rows : list row) : list row :=
  filter (λ d, buffer_km d ∈ buffers) rows.

(** ** Maps filled by successive [set] calls *)

Definition set_all `{Countable K} {V} (m : gmap K V) (kvs : list (K * V)) :
    gmap K V :=
  foldl (λ m kv, <[kv.1 := kv.2]> m) m kvs.

(** [countryRows.forEach(d => exposureByKey.set(keyExposure(...), d))] *)
Definition build_exposureByKey (rows : list row) : gmap string row :=
  set_all ∅ ((λ d, (keyExposure (iso3 d) (year d) (buffer_km d), d)) <$> rows).

(** ** Sorting and the d3 comparators *)

(** [Array.prototype.sort] is a stable sort; for a comparator that is a
    consistent ordering there is one stable result, computed here by
    insertion from the right: an element moves past those it compares
    strictly greater than, and stays in front of its equals. *)
Section js_sort.
Context {A : Type} (cmp : A → A → Z).

Fixpoint sort_insert (x : A) (l : list A) : list A :=
  match l with
  | [] => [x]
  | y :: l' => if (0 <? cmp x y)%Z then y :: sort_insert x l' else x :: y :: l'
  end.

Definition js_sort (l : list A) : list A := foldr sort_insert [] l.
End js_sort.

(** [x] does not go after [y] in the order of the comparator. *)
Definition not_after {A : Type} (cmp : A → A → Z) (x y : A) : Prop :=
  ¬ (0 < cmp x y)%Z.

(** [d3.ascending] on integers. *)
Definition ascending (a b : Z) : Z :=
  if (a <? b)%Z then (-1)%Z else if (b <? a)%Z then 1%Z else 0%Z.

Definition Qltb (a b : Q) : bool :=
  match Qcompare a b with
  | Lt => true
  | _ => false
  end.

(** [d3.descending] on values that may be [null]: the comparator answers
    [NaN] on [null], which [sort] reads as 0. *)
Definition descending (a b : option Q) : Z :=
  match a, b with
  | Some x, Some y => if Qltb y x then (-1)%Z else if Qltb x y then 1%Z else 0%Z
  | _, _ => 0%Z
  end.

(** ** [d3.group]

    The library groups rows in a map whose keys come in order of first
    appearance, each with its rows in input order. *)
Section group.
Context {K : Type} `{EqDecision K} (key : row → K).

Fixpoint group_keys (l : list row) : list K :=
  match l with
  | [] => []
  | d :: l' => key d :: filter (λ k, k ≠ key d) (group_keys l')
  end.

Definition group (l : list row) : list (K * list row) :=
  (λ k, (k, filter (λ d, key d = k) l)) <$> group_keys l.
End group.

(** ** The rank index *)

Definition rank_subset (rows : list row) (y b : Z) : list row :=
  filter (λ d, year d = y ∧ buffer_km d = b ∧ pct_near d ≠ None) rows.

Definition by_pct_descending (a b : row) : Z :=
  descending (pct_near a) (pct_near b).

(** [subset.forEach((d, i) => map.set(d.iso3, i + 1))] *)
Definition rank_map (sorted : list row) : gmap string nat :=
  set_all ∅ (imap (λ i d, (iso3 d, S i)) sorted).

Definition ranks_at (rows : list row) (y b : Z) : gmap string nat :=
  rank_map (js_sort by_pct_descending (rank_subset rows y b)).

Definition build_rankByYearBuffer (rows : list row) :
    gmap string (gmap string nat) :=
  foldl (λ m y,
    foldl (λ m b, <[keyYearBuffer y b := ranks_at rows y b]> m) m buffers)
    ∅ years.

(** ** The decade-change walk *)

Record deltas : Type := Deltas {
  deltaExposureByKey : gmap string (option Z);
  maxDeltaByBuffer : gmap Z Z
}.

Definition by_year_ascending (a b : row) : Z := ascending (year a) (year b).

(** The value computed for a row against the previous one:
    [r.pop_near - prev.pop_near], [null] when not finite, 0 when
    negative. *)
Definition decade_delta (prev r : row) : option Z :=
  (* let delta = r.pop_near - prev.pop_near; *)
  let delta := num_sub (to_number (pop_near r)) (to_number (pop_near prev)) in
  (* if (!isFinite(delta)) delta = null; *)
  let delta := finite_or_null delta in
  (* if (delta != null && delta < 0) delta = 0; *)
  match delta with
  | Some z => if (z <? 0)%Z then Some 0%Z else Some z
  | None => None
  end.

(** One group's [for (const r of sorted)] body; the second component is
    [prev]. *)
Definition walk_step (iso : string) (buffer : Z)
    (st : deltas * option row) (r : row) : deltas * option row :=
  let (s, prev) := st in
  match prev with
  | None =>
      (Deltas (<[keyExposure iso (year r) buffer := None]> (deltaExposureByKey s))
              (maxDeltaByBuffer s),
       Some r)
  | Some p =>
      let delta := decade_delta p r in
      let dm := <[keyExposure iso (year r) buffer := delta]> (deltaExposureByKey s) in
      let mm :=
        match delta with
        | Some z =>
            let old := default 0%Z (maxDeltaByBuffer s !! buffer) in
            if (old <? z)%Z then <[buffer := z]> (maxDeltaByBuffer s)
            else maxDeltaByBuffer s
        | None => maxDeltaByBuffer s
        end in
      (Deltas dm mm, Some r)
  end.

Definition walk_group (iso : string) (buffer : Z) (s : deltas)
    (rows : list row) : deltas :=
  (foldl (walk_step iso buffer) (s, None) (js_sort by_year_ascending rows)).1.

Definition build_deltas (rows : list row) : deltas :=
  foldl (λ s g,
    foldl (λ s h, walk_group g.1 h.1 s h.2) s (group buffer_km g.2))
    (Deltas ∅ ∅) (group iso3 rows).

(** *** The walk as a log

    The same walk seen as the sequence of values it computes: one entry
    per [deltaExposureByKey.set] call, in call order. *)
Record emitted : Type := Emit {
  em_iso : string;
  em_year : Z;
  em_buffer : Z;
  em_delta : option Z
}.

Definition em_key3 (e : emitted) : string * Z * Z :=
  (em_iso e, em_year e, em_buffer e).

(** The effect of one entry on the two maps. *)
Definition record_delta (s : deltas) (e : emitted) : deltas :=
  Deltas
    (<[keyExposure (em_iso e) (em_year e) (em_buffer e) := em_delta e]>
       (deltaExposureByKey s))
    (match em_delta e with
     | Some z =>
         if (default 0%Z (maxDeltaByBuffer s !! em_buffer e) <? z)%Z
         then <[em_buffer e := z]> (maxDeltaByBuffer s)
         else maxDeltaByBuffer s
     | None => maxDeltaByBuffer s
     end).

Fixpoint walk_log (iso : string) (buffer : Z) (prev : option row)
    (sorted : list row) : list emitted :=
  match sorted with
  | [] => []
  | r :: sorted' =>
      Emit iso (year r) buffer
           (match prev with
            | None => None
            | Some p => decade_delta p r
            end)
      :: walk_log iso buffer (Some r) sorted'
  end.

Definition delta_log (rows : list row) : list emitted :=
  g ← group iso3 rows;
  h ← group buffer_km g.2;
  walk_log g.1 h.1 None (js_sort by_year_ascending h.2).

(** ** [loadData]: the indices built from the parsed rows *)

Record data : Type := Data {
  countryRows : list row;
  exposureByKey : gmap string row;
  exposuresByCountry : list (string * list row);
  rankByYearBuffer : gmap string (gmap string nat);
  deltaIndex : deltas
}.

Definition loadData (raw : list row) : data :=
  let rows := keep_buffers raw in
  Data rows
       (build_exposureByKey rows)
       (group iso3 rows)
       (build_rankByYearBuffer rows)
       (build_deltas rows).

(** ** Reads against the indices *)

(** [deltaExposureByKey.get(keyExposure(iso3, year, buffer))]; [None] is
    "no value" ([null] or [undefined], which the callers test with
    [== null]). *)
Definition deltaAt (d : data) (iso : string) (y b : Z) : option Z :=
  mjoin (deltaExposureByKey (deltaIndex d) !! keyExposure iso y b).

(** [maxDeltaByBuffer.get(state.buffer) || 1] in [renderMapFills] *)
Definition maxDeltaPeople (d : data) (b : Z) : Z :=
  match maxDeltaByBuffer (deltaIndex d) !! b with
  | Some v => if (v =? 0)%Z then 1%Z else v
  | None => 1%Z
  end.

(** [rankMap ? rankMap.get(iso3) : null] in [renderDetail] *)
Definition rankOf (d : data) (iso : string) (y b : Z) : option nat :=
  match rankByYearBuffer d !! keyYearBuffer y b with
  | Some rankMap => rankMap !! iso
  | None => None
  end.

(** [rankMap ? rankMap.size : null] *)
Definition denomOf (d : data) (y b : Z) : option nat :=
  match rankByYearBuffer d !! keyYearBuffer y b with
  | Some rankMap => Some (size rankMap)
  | None => None
  end.

(** The value of a JavaScript division of two counts. *)
Inductive quotient : Type :=
  | Ratio (q : Q)
  | DivInf
  | DivNaN.

Definition js_div (a b : nat) : quotient :=
  match b with
  | O => match a with O => DivNaN | S _ => DivInf end
  | S _ => Ratio (Z.of_nat a # Pos.of_nat b)
  end.

Definition times100 (v : quotient) : quotient :=
  match v with
  | Ratio q => Ratio (q * 100)%Q
  | _ => v
  end.

(** Truthiness of a count that may be missing. *)
Definition truthy_count (v : option nat) : bool :=
  match v with
  | Some (S _) => true
  | _ => false
  end.

(** [rank && denom ? (rank / denom) * 100 : null]: the number that the
    source hands to [toFixed(0)], which prints it rounded to a whole
    number.  The printed string is left out; it is never [null], so this
    value is [null] exactly when the source's [pctRank] is, but it says
    nothing about the digits printed (rank 1 of 201 prints as 0). *)
Definition pctRank (rank denom : option nat) : option quotient :=
  if truthy_count rank && truthy_count denom
  then Some (times100 (js_div (default O rank) (default O denom)))
  else None.

(** ** Country codes of geographic features *)

Module Geo.

(** The values a GeoJSON identifier or property holds here. *)
Inductive jsval : Type :=
  | JUndefined
  | JNull
  | JString (s : string)
  | JNumber (z : Z).

Record props : Type := Props {
  iso_a3 : jsval;
  ISO_A3 : jsval;
  adm0_a3 : jsval;
  ADM0_A3 : jsval;
  iso3 : jsval;
  ISO3 : jsval
}.

Record feature : Type := Feature {
  id : jsval;
  properties : option props
}.

(** [{}]: every property reads [undefined]. *)
Definition no_props : props :=
  Props JUndefined JUndefined JUndefined JUndefined JUndefined JUndefined.

Definition truthy (c : jsval) : bool :=
  match c with
  | JUndefined | JNull => false
  | JString s => negb (bool_decide (s = EmptyString))
  | JNumber z => negb (z =? 0)%Z
  end.

(** [c.toString()]; the code calls it on truthy values only. *)
Definition toString (c : jsval) : string :=
  match c with
  | JUndefined => "undefined"
  | JNull => "null"
  | JString s => s
  | JNumber z => pretty z
  end.

Fixpoint trim_start (s : string) : string :=
  match s with
  | String a s' => if Ascii.is_space a then trim_start s' else s
  | EmptyString => EmptyString
  end.

Definition trim (s : string) : string :=
  String.rev (trim_start (String.rev (trim_start s))).

Definition is_upper (a : ascii) : bool :=
  let n := nat_of_ascii a in (65 <=? n)%nat && (n <=? 90)%nat.

Definition is_lower (a : ascii) : bool :=
  let n := nat_of_ascii a in (97 <=? n)%nat && (n <=? 122)%nat.

Definition is_letter (a : ascii) : bool := is_upper a || is_lower a.

(** [/^[A-Za-z]{3}$/.test(s)] *)
Definition three_letters (s : string) : bool :=
  match s with
  | String a (String b (String c EmptyString)) =>
      is_letter a && is_letter b && is_letter c
  | _ => false
  end.

Definition upper_char (a : ascii) : ascii :=
  if is_lower a then ascii_of_nat (nat_of_ascii a - 32) else a.

Fixpoint toUpperCase (s : string) : string :=
  match s with
  | String a s' => String (upper_char a) (toUpperCase s')
  | EmptyString => EmptyString
  end.

Definition alias : list (string * string) :=
  [("ANT", "NLD"); ("KOS", "XKX")].

Fixpoint alias_get (table : list (string * string)) (k : string) :
    option string :=
  match table with
  | [] => None
  | (k', v) :: table' => if decide (k' = k) then Some v else alias_get table' k
  end.

(** [alias[up] || up] *)
Definition canonical (up : string) : string :=
  default up (alias_get alias up).

Definition candidates (f : feature) : list jsval :=
  let p := default no_props (properties f) in
  [id f; iso_a3 p; ISO_A3 p; adm0_a3 p; ADM0_A3 p; iso3 p; ISO3 p].

(** The [for (const c of candidates)] loop. *)
Fixpoint scan (cs : list jsval) : option string :=
  match cs with
  | [] => None
  | c :: cs' =>
      if negb (truthy c) then scan cs'
      else
        let s := trim (toString c) in
        if three_letters s then Some (canonical (toUpperCase s))
        else scan cs'
  end.

Definition featureIso3 (f : feature) : option string := scan (candidates f).

(** The resolution as the specification words it: the first candidate
    that is exactly three letters, in upper case, through the alias
    table. *)
Definition exactly_three_letters (c : jsval) : bool :=
  match c with
  | JString s => three_letters s
  | _ => false
  end.

Fixpoint spec_resolve (cs : list jsval) : option string :=
  match cs with
  | [] => None
  | c :: cs' =>
      if exactly_three_letters c
      then Some (canonical (toUpperCase (toString c)))
      else spec_resolve cs'
  end.

(** A candidate with the white space around a string removed. *)
Definition trimmed (c : jsval) : jsval :=
  match c with
  | JString s => JString (trim s)
  | _ => c
  end.

End Geo.

(** ** View state and playback *)

Module View.

Record State : Type := MkState {
  year : Z;
  buffer : Z;
  selectedIso3 : option string;
  showPlants : bool;
  playing : bool
}.

(** The page: the [state] object, the [playTimer] variable and the
    intervals the browser holds.  An interval is its handle and the
    [idx] variable its callback closes over; [setInterval] hands out
    fresh positive handles. *)
Record world : Type := World {
  state : State;
  playTimer : option nat;
  timers : list (nat * Z);
  nextHandle : nat
}.

Definition init : world :=
  World (MkState 2010 30 None false false) None [] 1.

Definition set_year (y : Z) (s : State) : State :=
  MkState y (buffer s) (selectedIso3 s) (showPlants s) (playing s).

Definition set_buffer (b : Z) (s : State) : State :=
  MkState (year s) b (selectedIso3 s) (showPlants s) (playing s).

Definition set_selected (i : option string) (s : State) : State :=
  MkState (year s) (buffer s) i (showPlants s) (playing s).

Definition set_showPlants (v : bool) (s : State) : State :=
  MkState (year s) (buffer s) (selectedIso3 s) v (playing s).

Definition set_playing (v : bool) (s : State) : State :=
  MkState (year s) (buffer s) (selectedIso3 s) (showPlants s) v.

(** [years.indexOf(y)], -1 when absent. *)
Fixpoint indexOf_from (i : Z) (l : list Z) (y : Z) : Z :=
  match l with
  | [] => (-1)%Z
  | x :: l' => if (x =? y)%Z then i else indexOf_from (i + 1)%Z l' y
  end.

Definition indexOf (l : list Z) (y : Z) : Z := indexOf_from 0%Z l y.

(** [years[idx]]; the index is always in range where the code reads. *)
Definition year_at (idx : Z) : Z := default 0%Z (years !! Z.to_nat idx).

Definition startPlayback (w : world) : world :=
  let idx := indexOf years (year (state w)) in
  let idx := if (idx <? 0)%Z then 0%Z else idx in
  let h := nextHandle w in
  World (set_playing true (state w))
        (Some h)
        (timers w ++ [(h, idx)])
        (S h).

Definition clearInterval (h : nat) (ts : list (nat * Z)) : list (nat * Z) :=
  filter (λ t, t.1 ≠ h) ts.

Definition stopPlayback (w : world) : world :=
  let s := set_playing false (state w) in
  match playTimer w with
  | Some (S _ as h) => World s None (clearInterval h (timers w)) (nextHandle w)
  | _ => World s (playTimer w) (timers w) (nextHandle w)
  end.

(** One firing of the interval with handle [h]: the callback advances
    its own [idx] and writes [state.year]. *)
Fixpoint fire (h : nat) (ts : list (nat * Z)) : option (Z * list (nat * Z)) :=
  match ts with
  | [] => None
  | (h', idx) :: ts' =>
      if decide (h' = h) then
        let idx' := ((idx + 1) `mod` Z.of_nat (length years))%Z in
        Some (idx', (h', idx') :: ts')
      else
        match fire h ts' with
        | Some (i, ts'') => Some (i, (h', idx) :: ts'')
        | None => None
        end
  end.

Definition tick (h : nat) (w : world) : world :=
  match fire h (timers w) with
  | Some (idx, ts) =>
      World (set_year (year_at idx) (state w)) (playTimer w) ts (nextHandle w)
  | None => w
  end.

(** What can happen to the page. *)
Inductive event : Type :=
  | PlayClick
  | Tick (h : nat)
  | YearInput (y : Z)
  | BufferChange (b : Z)
  | PlantsToggle (v : bool)
  | CountryClick (f : Geo.feature).

Definition step (w : world) (e : event) : world :=
  match e with
  | PlayClick =>
      if playing (state w) then stopPlayback w else startPlayback w
  | Tick h => tick h w
  | YearInput y =>
      World (set_year y (state w)) (playTimer w) (timers w) (nextHandle w)
  | BufferChange b =>
      World (set_buffer b (state w)) (playTimer w) (timers w) (nextHandle w)
  | PlantsToggle v =>
      World (set_showPlants v (state w)) (playTimer w) (timers w) (nextHandle w)
  | CountryClick f =>
      match Geo.featureIso3 f with
      | Some iso =>
          World (set_selected (Some iso) (state w)) (playTimer w) (timers w)
                (nextHandle w)
      | None => w
      end
  end.

Definition run (w : world) (es : list event) : world := foldl step w es.

Inductive reachable : world → Prop :=
  | reach_init : reachable init
  | reach_step w e : reachable w → reachable (step w e).

(** The world after [n] firings of the interval [h]. *)
Definition ticks (h : nat) (n : nat) (w : world) : world :=
  Nat.iter n (tick h) w.

End View.

(** ** Auxiliary notions of the proofs and sample tables *)

Definition has_pct (d : row) : Prop := pct_near d ≠ None.

(** The pairs of the fixed year × buffer cross product, as the nested
    [forEach] visits them. *)
Definition rank_entries (rows : list row) : list (string * gmap string nat) :=
  y ← years; b ← buffers; [(keyYearBuffer y b, ranks_at rows y b)].

(** What holds of the page in every state the events can produce: the
    browser holds one interval while [state.playing] is set, [playTimer]
    is its handle, and none otherwise. *)
Definition playback_inv (w : View.world) : Prop :=
  (1 ≤ View.nextHandle w)%nat
  ∧ if View.playing (View.state w)
    then ∃ h idx, View.playTimer w = Some h ∧ View.timers w = [(h, idx)]
                  ∧ (1 ≤ h < View.nextHandle w)%nat
    else View.playTimer w = None ∧ View.timers w = [].

(** A firing of the interval [h]. *)
Definition is_tick (h : nat) (e : View.event) : bool :=
  match e with
  | View.Tick h' => bool_decide (h' = h)
  | _ => false
  end.

(** How often the interval [h] fires among the events. *)
Definition firings (h : nat) (es : list View.event) : nat :=
  length (filter (λ e, is_tick h e = true) es).

(** Events that leave the slider and the play button alone. *)
Definition hands_off (e : View.event) : Prop :=
  match e with
  | View.YearInput _ | View.PlayClick => False
  | _ => True
  end.

Definition em_set (e : emitted) : string * option Z :=
  (keyExposure (em_iso e) (em_year e) (em_buffer e), em_delta e).

(** What the running maximum holds after a log: for each buffer the
    largest value of the log when one is positive, and nothing
    otherwise. *)
Definition max_inv (m : gmap Z Z) (log : list emitted) : Prop :=
  ∀ b,
    match m !! b with
    | Some v =>
        (0 < v)%Z
        ∧ (∃ e, e ∈ log ∧ em_buffer e = b ∧ em_delta e = Some v)
        ∧ (∀ e z, e ∈ log → em_buffer e = b → em_delta e = Some z → (z ≤ v)%Z)
    | None =>
        ∀ e z, e ∈ log → em_buffer e = b → em_delta e = Some z → (z ≤ 0)%Z
    end.

Definition key_of_triple (t : string * Z * Z) : string :=
  keyExposure t.1.1 t.1.2 t.2.

(** The rows of one (entity, buffer) group, as [d3.group] nests them. *)
Definition row_group (rows : list row) (iso : string) (b : Z) : list row :=
  filter (λ d, buffer_km d = b) (filter (λ d, iso3 d = iso) rows).

(** A record of FRA at 30 km for 1990 and one for 2010, none for 2000. *)
Definition gap_rows : list row :=
  [Row "FRA" "France" 1990 30 (Some (16 # 1)%Q) (Some (Fin 10000000)) (Some 5%Z);
   Row "FRA" "France" 2010 30 (Some (18 # 1)%Q) (Some (Fin 12000000)) (Some 5%Z)].

(** Three entities at 30 km, one of them without a percentage, and a row
    at a buffer outside the fixed set. *)
Definition demo_rows : list row :=
  [Row "FRA" "France" 1990 30 (Some (16 # 1)%Q) (Some (Fin 10000000)) (Some 5%Z);
   Row "FRA" "France" 2000 30 (Some (17 # 1)%Q) (Some (Fin 11000000)) (Some 5%Z);
   Row "FRA" "France" 2010 30 (Some (18 # 1)%Q) (Some (Fin 12000000)) (Some 5%Z);
   Row "USA" "United States" 2000 30 (Some (5 # 2)%Q) (Some (Fin 5000000)) (Some 9%Z);
   Row "USA" "United States" 2010 30 (Some (18 # 1)%Q) (Some (Fin 4000000)) (Some 9%Z);
   Row "DEU" "Germany" 2010 30 None (Some NaN) None;
   Row "DEU" "Germany" 2010 45 (Some (3 # 1)%Q) (Some (Fin 1)) (Some 1%Z)].

(** ** Render-time reads

    What the drawing functions compute before they hand values to the
    scales: the part of [renderMapFills], [renderDetail] and
    [renderPlants] that reads the indices.  The map is taken as
    initialised: [initMap] has stored [__countryPaths__] and
    [__projection__], so the early returns that guard them are not
    taken. *)

(** [d3.max] over numbers: [undefined] on an empty array. *)
Definition q_max (l : list Q) : option Q :=
  foldl (λ m v,
    match m with
    | None => Some v
    | Some x => if Qltb x v then Some v else m
    end) None l.

(** [m || 1] *)
Definition q_or_one (m : option Q) : Q :=
  match m with
  | Some x => if Qeq_bool x 0 then 1%Q else x
  | None => 1%Q
  end.

(** [people / 1e6] *)
Definition millions (z : Z) : Q := (z # 1000000)%Q.

(** What the [fill] callback answers: the neutral grey, or the colour
    scale applied to a value, with the upper end of the scale's domain
    (the lower end is 0). *)
Inductive fill : Type :=
  | Neutral
  | Scaled (value domain_max : Q).

(** The baseline map of year [y]: the body of [renderMapFills] in
    [src/main.js], and its [state.year === 1990] branch in the variant
    with the change map. *)
Definition baseline_fill (d : data) (y b : Z) (f : Geo.feature) : fill :=
  let subset := rank_subset (countryRows d) y b in
  let maxPct := q_or_one (q_max (omap pct_near subset)) in
  match Geo.featureIso3 f with
  | None => Neutral
  | Some iso =>
      match exposureByKey d !! keyExposure iso y b with
      | None => Neutral
      | Some r =>
          match pct_near r with
          | None => Neutral
          | Some pct => Scaled pct maxPct
          end
      end
  end.

(** The change map: newly exposed people of the decade. *)
Definition change_fill (d : data) (y b : Z) (f : Geo.feature) : fill :=
  let maxDeltaMillions := millions (maxDeltaPeople d b) in
  match Geo.featureIso3 f with
  | None => Neutral
  | Some iso =>
      match deltaAt d iso y b with
      | None => Neutral
      | Some deltaPeople =>
          if (deltaPeople <=? 0)%Z then Neutral
          else Scaled (millions deltaPeople) maxDeltaMillions
      end
  end.

Definition renderMapFills (d : data) (st : View.State) (f : Geo.feature) :
    fill :=
  if (View.year st =? 1990)%Z
  then baseline_fill d 1990 (View.buffer st) f
  else change_fill d (View.year st) (View.buffer st) f.

(** [renderMapFills] of [src/main.js]. *)
Definition renderMapFills_main (d : data) (st : View.State)
    (f : Geo.feature) : fill :=
  baseline_fill d (View.year st) (View.buffer st) f.

(** [Map.get] on the grouping index. *)
Fixpoint group_get (k : string) (g : list (string * list row)) :
    option (list row) :=
  match g with
  | [] => None
  | (k', rs) :: g' => if decide (k' = k) then Some rs else group_get k g'
  end.

(** [Array.prototype.find]: the first element that passes. *)
Fixpoint js_find {A : Type} (p : A → bool) (l : list A) : option A :=
  match l with
  | [] => None
  | x :: l' => if p x then Some x else js_find p l'
  end.

(** One bar of the detail chart. *)
Record bar : Type := Bar {
  bar_buffer : Z;
  bar_pct : option Q;
  bar_pop : option num;
  bar_plants : option Z
}.

(** [buffers.map(b => { const r = yearRows.find(...); ... })] *)
Definition detail_bars (rows : list row) (y : Z) : list bar :=
  let yearRows := filter (λ d, year d = y) rows in
  (λ b,
     match js_find (λ d, bool_decide (buffer_km d = b)) yearRows with
     | Some r => Bar b (pct_near r) (pop_near r) (num_plants r)
     | None => Bar b (Some 0%Q) (Some (Fin 0)) (Some 0%Z)
     end) <$> buffers.

(** What [renderDetail] works from: [None] when it shows the prompt
    (nothing selected, or no rows for the selection), else the rows of
    the entity, [rows[0].country] and the bars. *)
Record detail : Type := Detail {
  detail_rows : list row;
  detail_name : option string;
  detail_data : list bar
}.

Definition renderDetail (d : data) (st : View.State) : option detail :=
  match View.selectedIso3 st with
  | None => None
  | Some iso =>
      if decide (iso = EmptyString) then None
      else
        match group_get iso (exposuresByCountry d) with
        | None => None
        | Some rows =>
            Some (Detail rows (country <$> head rows)
                         (detail_bars rows (View.year st)))
        end
  end.

(** [data.find(d => d.buffer_km === state.buffer)] *)
Definition detail_current (v : detail) (st : View.State) : option bar :=
  js_find (λ x, bool_decide (bar_buffer x = View.buffer st)) (detail_data v).

(** What a stretch of [renderDetail] comes to: the value it computes, or
    the [TypeError] of a method call on [null]. *)
Inductive outcome (A : Type) : Type :=
  | Throws
  | Returns (a : A).
Arguments Throws {A}.
Arguments Returns {A} a.

(** [current.pop_near - prevRow.pop_near] of the narrative, from the
    read of [current] on.  With a current bar the first sentence calls
    [current.pct_near.toFixed(1)], which throws on a [null] share before
    the decade change is reached.  Past it the change is computed when
    the year is not 1990 and the entity has a row of the previous decade
    at the buffer. *)
Definition detail_deltaPeople (v : detail) (st : View.State) :
    outcome (option num) :=
  match detail_current v st with
  | None => Returns None
  | Some current =>
      match bar_pct current with
      | None => Throws
      | Some _ =>
          if (View.year st =? 1990)%Z then Returns None
          else
            let prevYear := (View.year st - 10)%Z in
            match js_find (λ d, bool_decide (year d = prevYear)
                                && bool_decide (buffer_km d = View.buffer st))
                          (detail_rows v) with
            | None => Returns None
            | Some prevRow =>
                Returns (Some (num_sub (to_number (bar_pop current))
                                       (to_number (pop_near prevRow))))
            end
      end
  end.

(** Rows of the plant table: the fixed columns, and the population
    columns read by name. *)
Record plantRow : Type := PlantRow {
  plant : string;
  plant_country : string;
  num_reactors : Z;
  plant_pops : gmap string (option Z)
}.

(** [`pop${state.buffer}_${state.year}`] *)
Definition yearKey (buffer year : Z) : string :=
  "pop" +:+ pretty buffer +:+ "_" +:+ pretty year.

(** [d[yearKey]], [None] when [null] or missing. *)
Definition plant_pop (k : string) (d : plantRow) : option Z :=
  mjoin (plant_pops d !! k).

(** [d3.max] over integers and [|| 1]. *)
Definition z_max (l : list Z) : option Z :=
  foldl (λ m v,
    match m with
    | None => Some v
    | Some x => if (x <? v)%Z then Some v else m
    end) None l.

Definition z_or_one (m : option Z) : Z :=
  match m with
  | Some x => if (x =? 0)%Z then 1%Z else x
  | None => 1%Z
  end.

(** The circles [renderPlants] draws: the plant, the value given to the
    radius scale and the upper end of that scale's domain.  Nothing is
    drawn while the overlay is off. *)
Definition renderPlants (plantRows : list plantRow) (st : View.State) :
    list (plantRow * Z * Z) :=
  if negb (View.showPlants st) then []
  else
    let k := yearKey (View.buffer st) (View.year st) in
    let rows := filter (λ d, plant_pop k d ≠ None) plantRows in
    let maxPop := z_or_one (z_max (omap (plant_pop k) rows)) in
    omap (λ d, (λ v, (d, v, maxPop)) <$> plant_pop k d) rows.

(** ** The slider

    [initControls] sets the range input to [min = d3.min(years)],
    [max = d3.max(years)] and [step = 10]; the browser keeps its value on
    that grid. *)
Definition z_min (l : list Z) : option Z :=
  foldl (λ m v,
    match m with
    | None => Some v
    | Some x => if (v <? x)%Z then Some v else m
    end) None l.

Definition slider_value (y : Z) : Prop :=
  match z_min years, z_max years with
  | Some lo, Some hi => (lo ≤ y ≤ hi ∧ (y - lo) `mod` 10 = 0)%Z
  | _, _ => False
  end.

(** Events as the page produces them: year inputs come from the slider. *)
Definition from_page (e : View.event) : Prop :=
  match e with
  | View.YearInput y => slider_value y
  | _ => True
  end.

(** An entity code: three upper-case letters. *)
Definition is_code (s : string) : Prop :=
  match s with
  | String a (String b (String c EmptyString)) =>
      Geo.is_upper a = true ∧ Geo.is_upper b = true ∧ Geo.is_upper c = true
  | _ => False
  end.

(** The selection, when there is one, is an entity code. *)
Definition selection_ok (w : View.world) : Prop :=
  match View.selectedIso3 (View.state w) with
  | None => True
  | Some c => is_code c ∧ c ≠ "ANT" ∧ c ≠ "KOS"
  end.

(** * Properties *)

(** ** Composite string keys *)

Lemma string_app_nil (t : string) : EmptyString +:+ t = t.
Proof. reflexivity. Qed.

Lemma string_app_cons a (s t : string) : String a s +:+ t = String a (s +:+ t).
Proof. reflexivity. Qed.

Lemma has_char_app c s t :
  has_char c (s +:+ t) = has_char c s || has_char c t.
Proof.
  induction s as [|a s IH]; [done|].
  rewrite string_app_cons. simpl. rewrite IH. by destruct (decide (a = c)).
Qed.

Lemma string_app_assoc (s t u : string) : (s +:+ t) +:+ u = s +:+ t +:+ u.
Proof.
  induction s as [|a s IH]; [done|].
  by rewrite !string_app_cons, IH.
Qed.

Lemma all_chars_app P s t :
  all_chars P (s +:+ t) = all_chars P s && all_chars P t.
Proof.
  induction s as [|a s IH]; [done|].
  rewrite string_app_cons. simpl. by rewrite IH, andb_assoc.
Qed.

Lemma all_chars_has_char P c s :
  all_chars P s = true → P c = false → has_char c s = false.
Proof.
  intros Hs Hc. induction s as [|a s IH]; [done|]. simpl in *.
  apply andb_true_iff in Hs as [Ha Hs].
  destruct (decide (a = c)) as [->|_]; [congruence|auto].
Qed.

Lemma pretty_N_char_digit x : digit_or_sign (pretty_N_char x) = true.
Proof. unfold pretty_N_char. by repeat case_match. Qed.

Lemma pretty_N_go_chars x s :
  all_chars digit_or_sign s = true →
  all_chars digit_or_sign (pretty_N_go x s) = true.
Proof.
  revert s. induction (N.lt_wf_0 x) as [x _ IH]; intros s Hs.
  destruct (decide (x = 0)%N) as [->|Hx]; [by rewrite pretty_N_go_0|].
  rewrite pretty_N_go_step by lia.
  apply IH; [apply N.div_lt; lia|]. simpl.
  by rewrite pretty_N_char_digit.
Qed.

Lemma pretty_N_chars (x : N) : all_chars digit_or_sign (pretty x) = true.
Proof.
  unfold pretty, pretty_N. case_decide; [done|]. by apply pretty_N_go_chars.
Qed.

Lemma pretty_Z_chars (x : Z) : all_chars digit_or_sign (pretty x) = true.
Proof.
  destruct x as [|p|p]; [done|..].
  - apply (pretty_N_chars (N.pos p)).
  - change (pretty (Z.neg p)) with ("-" +:+ pretty (N.pos p)).
    by rewrite all_chars_app, pretty_N_chars.
Qed.

Lemma pretty_Z_no_sep (x : Z) : has_char "_" (pretty x) = false.
Proof.
  apply (all_chars_has_char digit_or_sign); [apply pretty_Z_chars|done].
Qed.

(** A string is cut in one way only at its last separator. *)
Lemma split_last_sep (s1 s2 t1 t2 : string) :
  has_char "_" t1 = false → has_char "_" t2 = false →
  s1 +:+ "_" +:+ t1 = s2 +:+ "_" +:+ t2 → s1 = s2 ∧ t1 = t2.
Proof.
  intros H1 H2. revert s2.
  induction s1 as [|a s1 IH]; intros [|b s2] E;
    repeat (rewrite string_app_nil in E || rewrite string_app_cons in E).
  - by simplify_eq.
  - injection E as <- E. rewrite E, has_char_app in H1. simpl in H1.
    by rewrite orb_true_r in H1.
  - injection E as -> E. rewrite <- E, has_char_app in H2. simpl in H2.
    by rewrite orb_true_r in H2.
  - injection E as -> E. destruct (IH _ E) as [-> ->]. done.
Qed.

Lemma keyYearBuffer_inj y1 b1 y2 b2 :
  keyYearBuffer y1 b1 = keyYearBuffer y2 b2 → y1 = y2 ∧ b1 = b2.
Proof.
  unfold keyYearBuffer. intros E.
  apply split_last_sep in E as [Ey Eb]; auto using pretty_Z_no_sep.
  split; by apply (inj pretty).
Qed.

Lemma keyExposure_split i y b :
  keyExposure i y b = (i +:+ "_" +:+ pretty y) +:+ "_" +:+ pretty b.
Proof. unfold keyExposure. by rewrite !string_app_assoc. Qed.

Lemma keyExposure_inj i1 y1 b1 i2 y2 b2 :
  keyExposure i1 y1 b1 = keyExposure i2 y2 b2 → i1 = i2 ∧ y1 = y2 ∧ b1 = b2.
Proof.
  rewrite !keyExposure_split. intros E.
  apply split_last_sep in E as [E Eb]; auto using pretty_Z_no_sep.
  apply split_last_sep in E as [Ei Ey]; auto using pretty_Z_no_sep.
  repeat split; [done|by apply (inj pretty)..].
Qed.

(** ** Maps filled by [set] *)

Section set_all.
Context `{Countable K} {V : Type}.
Implicit Types (m : gmap K V) (l : list (K * V)).

Lemma set_all_snoc m l k v :
  set_all m (l ++ [(k, v)]) = <[k := v]> (set_all m l).
Proof. unfold set_all. by rewrite foldl_app. Qed.

Lemma set_all_lookup_notin m l k :
  k ∉ l.*1 → set_all m l !! k = m !! k.
Proof.
  induction l as [|[k' v'] l IH] using rev_ind; [done|].
  rewrite fmap_app, elem_of_app, set_all_snoc. simpl.
  rewrite list_elem_of_singleton. intros Hk.
  rewrite lookup_insert_ne by naive_solver. apply IH. naive_solver.
Qed.

Lemma set_all_lookup_inv m l k v :
  set_all m l !! k = Some v → (k, v) ∈ l ∨ m !! k = Some v.
Proof.
  induction l as [|[k' v'] l IH] using rev_ind; [by right|].
  rewrite set_all_snoc, elem_of_app, list_elem_of_singleton.
  destruct (decide (k' = k)) as [->|Hne].
  - rewrite lookup_insert_eq. intros [= ->]. by left; right.
  - rewrite lookup_insert_ne by done. intros Hl.
    destruct (IH Hl); [by left; left|by right].
Qed.

(** The last value set for a key is the one read; when all the values
    set for it agree, any of them is. *)
Lemma set_all_lookup_agree m l k v :
  (k, v) ∈ l → (∀ v', (k, v') ∈ l → v' = v) → set_all m l !! k = Some v.
Proof.
  induction l as [|[k' v'] l IH] using rev_ind; [by intros ?%elem_of_nil|].
  rewrite set_all_snoc. intros Hin Hall.
  destruct (decide (k' = k)) as [->|Hne].
  - rewrite lookup_insert_eq. f_equal. apply Hall, elem_of_app.
    right. by apply list_elem_of_singleton.
  - rewrite lookup_insert_ne by done. apply IH.
    + apply elem_of_app in Hin as [?|Hin]; [done|].
      apply list_elem_of_singleton in Hin. congruence.
    + intros v'' ?. apply Hall, elem_of_app. by left.
Qed.

Lemma set_all_lookup_nodup m l k v :
  NoDup l.*1 → (k, v) ∈ l → set_all m l !! k = Some v.
Proof.
  intros Hnd Hin. apply set_all_lookup_agree; [done|].
  intros v' Hin'.
  apply list_elem_of_lookup in Hin as [i Hi], Hin' as [j Hj].
  assert (i = j) as ->.
  { eapply NoDup_lookup; [done|..];
      by rewrite list_lookup_fmap; (rewrite Hi || rewrite Hj). }
  congruence.
Qed.

Lemma set_all_size l : NoDup l.*1 → size (set_all (∅ : gmap K V) l) = length l.
Proof.
  induction l as [|[k v] l IH] using rev_ind; [done|].
  rewrite fmap_app, NoDup_app, set_all_snoc, length_app. simpl.
  intros (Hnd & Hdisj & _).
  rewrite map_size_insert_None.
  - rewrite IH by done. lia.
  - rewrite set_all_lookup_notin; [done|].
    intros ?. eapply Hdisj; [done|]. by apply list_elem_of_singleton.
Qed.
End set_all.

(** ** The buffer filter *)

Lemma keep_buffers_elem (rows : list row) (d : row) :
  d ∈ keep_buffers rows ↔ buffer_km d ∈ buffers ∧ d ∈ rows.
Proof. unfold keep_buffers. by rewrite list_elem_of_filter. Qed.

(** C7: filtering the country rows to the fixed buffer set is idempotent;
    every surviving row has its buffer in the set, so a second filter
    drops nothing. *)
Theorem C7_keep_buffers_idempotent (rows : list row) :
  keep_buffers (keep_buffers rows) = keep_buffers rows
  ∧ Forall (λ d, buffer_km d ∈ buffers) (keep_buffers rows)
  ∧ countryRows (loadData (countryRows (loadData rows)))
    = countryRows (loadData rows).
Proof.
  assert (keep_buffers (keep_buffers rows) = keep_buffers rows) as Hidem.
  { unfold keep_buffers. induction rows as [|d rows IH]; [done|].
    rewrite (filter_cons _ d rows). case_decide as Hd; [|done].
    rewrite filter_cons, decide_True by done. by rewrite IH. }
  split_and!; [done| |done].
  apply Forall_forall. by intros d [? _]%keep_buffers_elem.
Qed.

(** ** The point index *)

Lemma build_exposureByKey_lookup (rows : list row) (r : row) :
  r ∈ rows →
  (∀ r', r' ∈ rows → key3 r' = key3 r → r' = r) →
  build_exposureByKey rows !! keyExposure (iso3 r) (year r) (buffer_km r)
  = Some r.
Proof.
  intros Hin Huniq. unfold build_exposureByKey.
  apply set_all_lookup_agree.
  - apply list_elem_of_fmap. by exists r.
  - intros r' (r'' & [= Hk ->] & Hin')%list_elem_of_fmap.
    apply Huniq; [done|].
    apply keyExposure_inj in Hk as (? & ? & ?). unfold key3. congruence.
Qed.

Lemma build_exposureByKey_inv (rows : list row) (k : string) (r : row) :
  build_exposureByKey rows !! k = Some r →
  r ∈ rows ∧ k = keyExposure (iso3 r) (year r) (buffer_km r).
Proof.
  unfold build_exposureByKey.
  intros [(r' & [= -> ->] & Hin)%list_elem_of_fmap|?]%set_all_lookup_inv;
    by simplify_map_eq.
Qed.

(** C3: for a triple present in the filtered rows that no other filtered
    row carries, the lookup with the triple's key returns one record, the
    source row itself with all its fields. *)
Theorem C3_point_index (raw : list row) (r : row) :
  r ∈ countryRows (loadData raw) →
  (∀ r', r' ∈ countryRows (loadData raw) → key3 r' = key3 r → r' = r) →
  exposureByKey (loadData raw) !! keyExposure (iso3 r) (year r) (buffer_km r)
  = Some r
  ∧ ∀ r', exposureByKey (loadData raw)
            !! keyExposure (iso3 r) (year r) (buffer_km r) = Some r' →
          r' = r.
Proof.
  intros Hin Huniq.
  pose proof (build_exposureByKey_lookup _ _ Hin Huniq) as Hl.
  change (exposureByKey (loadData raw))
    with (build_exposureByKey (countryRows (loadData raw))).
  split; [done|]. intros r'. rewrite Hl. congruence.
Qed.

(** ** The stable sort *)

Section sort_facts.
Context {A : Type} (cmp : A → A → Z).

Lemma sort_insert_perm x l : sort_insert cmp x l ≡ₚ x :: l.
Proof.
  induction l as [|y l IH]; simpl; [done|].
  case_match; [|done]. by rewrite IH, Permutation_swap.
Qed.

Lemma js_sort_perm l : js_sort cmp l ≡ₚ l.
Proof.
  induction l as [|x l IH]; simpl; [done|].
  by rewrite sort_insert_perm, IH.
Qed.

Lemma js_sort_elem_of l x : x ∈ js_sort cmp l ↔ x ∈ l.
Proof. by rewrite js_sort_perm. Qed.

Lemma js_sort_length l : length (js_sort cmp l) = length l.
Proof. by rewrite js_sort_perm. Qed.

Lemma sort_insert_sublist x l : l `sublist_of` sort_insert cmp x l.
Proof.
  induction l as [|y l IH]; simpl; [apply sublist_nil_l|].
  case_match; [by apply sublist_skip|by apply sublist_cons].
Qed.

(** An element stays in front of those it does not go after. *)
Lemma sort_insert_front x z l :
  z ∈ l → not_after cmp x z → [x; z] `sublist_of` sort_insert cmp x l.
Proof.
  intros Hz Hxz. induction l as [|y l IH]; [by apply elem_of_nil in Hz|].
  simpl. destruct (0 <? cmp x y)%Z eqn:Hc.
  - apply sublist_cons, IH. apply elem_of_cons in Hz as [->|?]; [|done].
    apply Z.ltb_lt in Hc. by destruct Hxz.
  - by apply sublist_skip, singleton_sublist_l.
Qed.

(** The comparator orders the values that satisfy [P] consistently. *)
Context (P : A → Prop).
Hypothesis cmp_asym :
  ∀ x y, P x → P y → (0 < cmp x y)%Z → not_after cmp y x.
Hypothesis cmp_trans :
  ∀ x y z, P x → P y → P z → not_after cmp x y → not_after cmp y z → not_after cmp x z.

Lemma sort_insert_sorted x l :
  P x → Forall P l →
  StronglySorted (not_after cmp) l → StronglySorted (not_after cmp) (sort_insert cmp x l).
Proof.
  intros Hx. induction l as [|y l IH]; simpl.
  - intros _ _. by repeat constructor.
  - intros [Hy Hl]%Forall_cons [Hyl Hs]%StronglySorted_cons.
    destruct (0 <? cmp x y)%Z eqn:Hc.
    + apply Z.ltb_lt in Hc. constructor; [by apply IH|].
      rewrite sort_insert_perm. constructor; [by apply cmp_asym|done].
    + apply Z.ltb_ge in Hc.
      assert (not_after cmp x y) as Hxy by (unfold not_after; lia).
      constructor; [by constructor|]. constructor; [done|].
      rewrite Forall_forall in Hyl, Hl |- *. intros z Hz.
      apply (cmp_trans x y z); auto.
Qed.

Lemma js_sort_sorted l : Forall P l → StronglySorted (not_after cmp) (js_sort cmp l).
Proof.
  induction l as [|x l IH]; simpl; [constructor|].
  intros [Hx Hl]%Forall_cons. apply sort_insert_sorted; [done| |by apply IH].
  by rewrite js_sort_perm.
Qed.

(** An element goes behind those it goes after. *)
Lemma sort_insert_back x z l :
  P x → Forall P l → StronglySorted (not_after cmp) l →
  z ∈ l → (0 < cmp x z)%Z → [z; x] `sublist_of` sort_insert cmp x l.
Proof.
  intros Hx Hl Hs Hz Hxz. induction l as [|y l IH]; [by apply elem_of_nil in Hz|].
  apply Forall_cons in Hl as [Hy Hl].
  apply StronglySorted_cons in Hs as [Hyl Hs].
  simpl. destruct (0 <? cmp x y)%Z eqn:Hc.
  - apply elem_of_cons in Hz as [->|Hz].
    + apply sublist_skip, singleton_sublist_l.
      rewrite sort_insert_perm. by left.
    + by apply sublist_cons, IH.
  - apply Z.ltb_ge in Hc. exfalso.
    assert (not_after cmp x y) as Hxy by (unfold not_after; lia).
    apply elem_of_cons in Hz as [->|Hz]; [done|].
    rewrite Forall_forall in Hyl, Hl.
    by apply (cmp_trans x y z Hx Hy (Hl _ Hz) Hxy (Hyl _ Hz)).
Qed.

(** Stability: of two elements in input order, the first stays first
    unless it goes after the second. *)
Lemma js_sort_order l a b :
  Forall P l → [a; b] `sublist_of` l →
  (not_after cmp a b → [a; b] `sublist_of` js_sort cmp l)
  ∧ ((0 < cmp a b)%Z → [b; a] `sublist_of` js_sort cmp l).
Proof.
  induction l as [|x l IH]; [by intros _ ?%sublist_nil_r|].
  intros [Hx Hl]%Forall_cons [Hab|(l' & [= -> <-] & Hb)]%sublist_cons_r; simpl.
  - destruct (IH Hl Hab) as [IH1 IH2]. split; intros ?;
      (etrans; [|apply sort_insert_sublist]); auto.
  - apply singleton_sublist_l in Hb. split; intros ?.
    + apply sort_insert_front; [|done]. by apply js_sort_elem_of.
    + apply sort_insert_back; [done| |by apply js_sort_sorted| |done].
      * by rewrite js_sort_perm.
      * by apply js_sort_elem_of.
Qed.
End sort_facts.

(** Positions in a list without repetition follow the sublist order. *)
Lemma sublist_pair_lookup {A} (l : list A) (a b : A) (i j : nat) :
  NoDup l → [a; b] `sublist_of` l →
  l !! i = Some a → l !! j = Some b → (i < j)%nat.
Proof.
  intros Hnd Hs. revert i j.
  induction l as [|c l IH]; intros i j; [done|].
  apply NoDup_cons in Hnd as [Hc Hnd].
  apply sublist_cons_r in Hs as [Hs|(l' & [= -> <-] & Hb)].
  - assert (a ∈ l ∧ b ∈ l) as [Ha Hb].
    { split; eapply elem_of_sublist; [|done| |done]; set_solver. }
    destruct i as [|i]; simpl; [intros [= ->]; done|].
    destruct j as [|j]; simpl; [intros _ [= ->]; done|].
    intros ??. apply -> Nat.succ_lt_mono. by apply IH.
  - apply singleton_sublist_l in Hb.
    destruct i as [|i]; simpl.
    + destruct j as [|j]; simpl; [intros _ [= ->]; done|]. lia.
    + intros Ha%list_elem_of_lookup_2. done.
Qed.

Lemma lookup_pair_sublist {A} (l : list A) (a b : A) (i j : nat) :
  (i < j)%nat → l !! i = Some a → l !! j = Some b → [a; b] `sublist_of` l.
Proof.
  revert i j. induction l as [|c l IH]; intros i j Hij; [done|].
  destruct i as [|i]; simpl.
  - intros [= ->]. destruct j as [|j]; [lia|]. simpl.
    intros Hb%list_elem_of_lookup_2.
    by apply sublist_skip, singleton_sublist_l.
  - destruct j as [|j]; [lia|]. simpl. intros ??.
    apply sublist_cons. apply (IH i j); [lia|done..].
Qed.

(** ** The rank index *)

Lemma Qltb_lt (a b : Q) : Qltb a b = true ↔ (a < b)%Q.
Proof. unfold Qltb. rewrite Qlt_alt. by destruct (a ?= b)%Q. Qed.

Lemma by_pct_descending_gt (a b : row) (pa pb : Q) :
  pct_near a = Some pa → pct_near b = Some pb →
  (0 < by_pct_descending a b)%Z ↔ (pa < pb)%Q.
Proof.
  unfold by_pct_descending, descending. intros -> ->.
  destruct (Qltb pb pa) eqn:H1; [|destruct (Qltb pa pb) eqn:H2].
  - apply Qltb_lt in H1. split; [lia|]. intros H2.
    destruct (Qlt_irrefl pa). by apply Qlt_trans with pb.
  - apply Qltb_lt in H2. split; [done|lia].
  - split; [lia|]. intros H3%Qltb_lt. congruence.
Qed.

Lemma by_pct_descending_asym (x y : row) :
  has_pct x → has_pct y →
  (0 < by_pct_descending x y)%Z → not_after by_pct_descending y x.
Proof.
  unfold has_pct, not_after.
  destruct (pct_near x) as [px|] eqn:Hx, (pct_near y) as [py|] eqn:Hy;
    try done; intros _ _.
  rewrite !(by_pct_descending_gt _ _ _ _) by done.
  intros H1 H2. destruct (Qlt_irrefl px). by apply Qlt_trans with py.
Qed.

Lemma by_pct_descending_trans (x y z : row) :
  has_pct x → has_pct y → has_pct z →
  not_after by_pct_descending x y → not_after by_pct_descending y z →
  not_after by_pct_descending x z.
Proof.
  unfold has_pct, not_after.
  destruct (pct_near x) as [px|] eqn:Hx, (pct_near y) as [py|] eqn:Hy,
    (pct_near z) as [pz|] eqn:Hz; try done; intros _ _ _.
  rewrite !(by_pct_descending_gt _ _ _ _) by done.
  intros H1%Qnot_lt_le H2%Qnot_lt_le. apply Qle_not_lt.
  by apply Qle_trans with py.
Qed.

Lemma rank_subset_elem (rows : list row) (y b : Z) (d : row) :
  d ∈ rank_subset rows y b ↔
  (year d = y ∧ buffer_km d = b ∧ pct_near d ≠ None) ∧ d ∈ rows.
Proof. unfold rank_subset. by rewrite list_elem_of_filter. Qed.

Lemma rank_subset_has_pct (rows : list row) (y b : Z) :
  Forall has_pct (rank_subset rows y b).
Proof.
  apply Forall_forall. intros d [(_ & _ & Hp) _]%rank_subset_elem. exact Hp.
Qed.

(** Within one [(year, buffer)] pair a unique triple is a unique entity. *)
Lemma rank_subset_NoDup (rows : list row) (y b : Z) :
  NoDup (key3 <$> rows) → NoDup (iso3 <$> rank_subset rows y b).
Proof.
  intros Hnd.
  assert (NoDup (key3 <$> rank_subset rows y b)) as Hsub.
  { eapply sublist_NoDup; [done|]. apply fmap_sublist, sublist_filter. }
  apply (NoDup_fmap_1 (λ i : string, (i, y, b))).
  rewrite <- list_fmap_compose.
  erewrite list_fmap_ext; [exact Hsub|].
  intros i d [(Hy & Hb & _) _]%list_elem_of_lookup_2%rank_subset_elem.
  unfold key3. simpl. by rewrite Hy, Hb.
Qed.

Lemma rank_map_keys (sorted : list row) :
  (imap (λ i d, (iso3 d, S i)) sorted).*1 = iso3 <$> sorted.
Proof. rewrite fmap_imap. by rewrite <- imap_const. Qed.

Lemma rank_map_lookup (sorted : list row) (iso : string) (k : nat) :
  NoDup (iso3 <$> sorted) →
  rank_map sorted !! iso = Some k ↔
  ∃ i d, sorted !! i = Some d ∧ iso3 d = iso ∧ k = S i.
Proof.
  intros Hnd. unfold rank_map. split.
  - intros [Hin|?]%set_all_lookup_inv; [|by simplify_map_eq].
    apply elem_of_lookup_imap in Hin as (i & d & [= -> ->] & Hi). eauto.
  - intros (i & d & Hi & <- & ->).
    apply set_all_lookup_nodup; [by rewrite rank_map_keys|].
    by apply (elem_of_lookup_imap_2 (λ i d, (iso3 d, S i))).
Qed.

Lemma rank_map_size (sorted : list row) :
  NoDup (iso3 <$> sorted) → size (rank_map sorted) = length sorted.
Proof.
  intros Hnd. unfold rank_map.
  rewrite set_all_size by (by rewrite rank_map_keys). apply length_imap.
Qed.

Lemma build_rankByYearBuffer_entries (rows : list row) :
  build_rankByYearBuffer rows = set_all ∅ (rank_entries rows).
Proof. reflexivity. Qed.

Lemma rank_entries_elem (rows : list row) k m :
  (k, m) ∈ rank_entries rows ↔
  ∃ y b, y ∈ years ∧ b ∈ buffers
         ∧ k = keyYearBuffer y b ∧ m = ranks_at rows y b.
Proof.
  unfold rank_entries. rewrite list_elem_of_bind. split.
  - intros (y & (b & Hin%list_elem_of_singleton & Hb)%list_elem_of_bind & Hy).
    simplify_eq. eauto 10.
  - intros (y & b & Hy & Hb & -> & ->). exists y. split; [|done].
    apply list_elem_of_bind. exists b. split; [|done].
    by apply list_elem_of_singleton.
Qed.

Lemma rankByYearBuffer_lookup (rows : list row) (y b : Z) :
  y ∈ years → b ∈ buffers →
  build_rankByYearBuffer rows !! keyYearBuffer y b = Some (ranks_at rows y b).
Proof.
  intros Hy Hb. rewrite build_rankByYearBuffer_entries.
  apply set_all_lookup_agree.
  - apply rank_entries_elem. eauto 10.
  - intros m (y' & b' & _ & _ & [-> ->]%keyYearBuffer_inj & ->)%rank_entries_elem.
    done.
Qed.

Lemma rankByYearBuffer_inv (rows : list row) (y b : Z) (m : gmap string nat) :
  build_rankByYearBuffer rows !! keyYearBuffer y b = Some m →
  y ∈ years ∧ b ∈ buffers ∧ m = ranks_at rows y b.
Proof.
  rewrite build_rankByYearBuffer_entries.
  intros [Hin|?]%set_all_lookup_inv; [|by simplify_map_eq].
  apply rank_entries_elem in Hin
    as (y' & b' & ? & ? & [-> ->]%keyYearBuffer_inj & ->).
  done.
Qed.

Lemma rank_map_lookup_row (sorted : list row) (r : row) (k : nat) :
  NoDup (iso3 <$> sorted) → r ∈ sorted →
  rank_map sorted !! iso3 r = Some k → ∃ i, sorted !! i = Some r ∧ k = S i.
Proof.
  intros Hnd [i' Hi']%list_elem_of_lookup (i & d & Hi & Hd & ->)%rank_map_lookup;
    [|done].
  exists i. split; [|done].
  assert (i = i') as ->; [|done].
  eapply NoDup_lookup; [done|..]; rewrite list_lookup_fmap.
  - by rewrite Hi; simpl; rewrite Hd.
  - by rewrite Hi'.
Qed.

(** What [ranks_at] holds: the ranks 1..N once each, N the length of
    the subset, for the entities of the subset and no other, by
    descending share and, on equal shares, by position in the subset. *)
Lemma ranks_at_subset (rows : list row) (y b : Z) :
  let subset := rank_subset rows y b in
  NoDup (iso3 <$> subset) →
  size (ranks_at rows y b) = length subset
  ∧ (∀ k, (1 ≤ k ≤ length subset)%nat ↔
          ∃ iso, ranks_at rows y b !! iso = Some k)
  ∧ (∀ iso1 iso2 k,
       ranks_at rows y b !! iso1 = Some k →
       ranks_at rows y b !! iso2 = Some k → iso1 = iso2)
  ∧ (∀ iso, is_Some (ranks_at rows y b !! iso) ↔
            ∃ r, r ∈ subset ∧ iso3 r = iso)
  ∧ (∀ r1 r2 p1 p2,
       [r1; r2] `sublist_of` subset →
       pct_near r1 = Some p1 → pct_near r2 = Some p2 →
       ∃ k1 k2,
         ranks_at rows y b !! iso3 r1 = Some k1
         ∧ ranks_at rows y b !! iso3 r2 = Some k2
         ∧ ((p2 <= p1)%Q → (k1 < k2)%nat) ∧ ((p1 < p2)%Q → (k2 < k1)%nat)).
Proof.
  intros subset Hnd. unfold ranks_at. fold subset.
  set (sorted := js_sort by_pct_descending subset).
  assert (NoDup (iso3 <$> sorted)) as Hiso.
  { unfold sorted. by rewrite js_sort_perm. }
  assert (length sorted = length subset) as Hlen by apply js_sort_length.
  assert (∀ r, r ∈ subset → ∃ i, sorted !! i = Some r
             ∧ rank_map sorted !! iso3 r = Some (S i)) as Hrank.
  { intros r Hr%(js_sort_elem_of by_pct_descending).
    apply list_elem_of_lookup in Hr as [i Hi]. exists i. split; [done|].
    apply rank_map_lookup; eauto. }
  split_and!.
  - by rewrite rank_map_size.
  - intros k. rewrite <- Hlen. split.
    + intros [H1 H2]. destruct (lookup_lt_is_Some_2 sorted (pred k)) as [d Hd];
        [lia|].
      exists (iso3 d). apply rank_map_lookup; [done|].
      exists (pred k), d. split_and!; [done..|lia].
    + intros (iso & (i & d & Hi%lookup_lt_Some & _ & ->)%rank_map_lookup);
        [lia|done].
  - intros iso1 iso2 k (i1 & d1 & Hi1 & <- & ->)%rank_map_lookup
      (i2 & d2 & Hi2 & <- & [= <-])%rank_map_lookup; [|done..].
    congruence.
  - intros iso. split.
    + intros [k (i & d & Hi%list_elem_of_lookup_2 & <- & _)%rank_map_lookup];
        [|done].
      exists d. split; [|done]. by apply (js_sort_elem_of by_pct_descending).
    + intros (r & (i & _ & Hi)%Hrank & <-). eauto.
  - intros r1 r2 p1 p2 Hsub Hp1 Hp2.
    assert (r1 ∈ subset ∧ r2 ∈ subset) as [Hr1 Hr2].
    { split; apply (elem_of_sublist [r1; r2]); try done;
        rewrite !elem_of_cons; auto. }
    destruct (Hrank r1 Hr1) as (a1 & Ha1 & Hk1).
    destruct (Hrank r2 Hr2) as (a2 & Ha2 & Hk2).
    exists (S a1), (S a2). split_and!; [done..| |].
    all: destruct (js_sort_order by_pct_descending has_pct
                by_pct_descending_asym by_pct_descending_trans
                subset r1 r2) as [Hkeep Hswap];
      [apply rank_subset_has_pct|done|].
    all: assert (NoDup sorted) as Hnds by by eapply NoDup_fmap_1.
    + intros Hp. apply -> Nat.succ_lt_mono.
      eapply (sublist_pair_lookup sorted r1 r2); [done| |done..].
      apply Hkeep. unfold not_after.
      rewrite (by_pct_descending_gt _ _ _ _ Hp1 Hp2). by apply Qle_not_lt.
    + intros Hp. apply -> Nat.succ_lt_mono.
      eapply (sublist_pair_lookup sorted r2 r1); [done| |done..].
      apply Hswap. by rewrite (by_pct_descending_gt _ _ _ _ Hp1 Hp2).
Qed.

Lemma filter_sublist_mono {A} (P : A → Prop) `{∀ x, Decision (P x)}
    (l1 l2 : list A) :
  l1 `sublist_of` l2 → filter P l1 `sublist_of` filter P l2.
Proof.
  induction 1 as [|x l1 l2 _ IH|x l1 l2 _ IH]; [done|..];
    rewrite ?filter_cons; destruct (decide (P x)); try done.
  - by constructor.
  - by constructor.
Qed.

(** The subset the ranks are built from, read off the table as loaded. *)
Lemma rank_subset_loaded (raw : list row) (y b : Z) :
  b ∈ buffers →
  rank_subset (countryRows (loadData raw)) y b
  = filter (λ d, year d = y ∧ buffer_km d = b ∧ pct_near d ≠ None) raw.
Proof.
  intros Hb. change (countryRows (loadData raw)) with (keep_buffers raw).
  unfold rank_subset, keep_buffers.
  induction raw as [|d raw IH]; [done|].
  rewrite !filter_cons.
  destruct (decide (buffer_km d ∈ buffers)) as [Hd|Hd].
  - rewrite filter_cons. by rewrite IH.
  - rewrite IH. rewrite decide_False; [done|].
    intros (_ & Hdb & _). by rewrite Hdb in Hd.
Qed.

(** The unique (entity, year, buffer) key of the loaded rows gives the
    rows of one pair distinct entities. *)
Lemma ranked_entities_unique (raw : list row) (y b : Z) :
  b ∈ buffers → NoDup (key3 <$> countryRows (loadData raw)) →
  NoDup (iso3 <$> filter (λ d, year d = y ∧ buffer_km d = b
                               ∧ pct_near d ≠ None) raw).
Proof.
  intros Hb Hnd. rewrite <- rank_subset_loaded by done.
  by apply rank_subset_NoDup.
Qed.

(** C2: for a pair of the year × buffer cross product the rank map holds
    the ranks 1..N exactly once each, N being the number of rows of the
    table at that pair with a non-null percentage (no entity having two
    of them, as the unique (entity, year, buffer) key of the data
    gives); an entity has a rank exactly when it has such a row; of two
    such rows the one with the larger share ranks first, and on equal
    shares the one that comes first in the table. *)
Theorem C2_rank_index (raw : list row) (y b : Z) :
  y ∈ years → b ∈ buffers →
  let ranked :=
    filter (λ d, year d = y ∧ buffer_km d = b ∧ pct_near d ≠ None) raw in
  NoDup (iso3 <$> ranked) →
  ∃ rankMap : gmap string nat,
    rankByYearBuffer (loadData raw) !! keyYearBuffer y b = Some rankMap
    ∧ size rankMap = length ranked
    ∧ (∀ k, (1 ≤ k ≤ length ranked)%nat ↔ ∃ iso, rankMap !! iso = Some k)
    ∧ (∀ iso1 iso2 k,
         rankMap !! iso1 = Some k → rankMap !! iso2 = Some k → iso1 = iso2)
    ∧ (∀ iso, is_Some (rankMap !! iso) ↔
              ∃ r, r ∈ raw ∧ iso3 r = iso ∧ year r = y ∧ buffer_km r = b
                   ∧ pct_near r ≠ None)
    ∧ (∀ i j r1 r2 p1 p2,
         (i < j)%nat → raw !! i = Some r1 → raw !! j = Some r2 →
         year r1 = y → buffer_km r1 = b → pct_near r1 = Some p1 →
         year r2 = y → buffer_km r2 = b → pct_near r2 = Some p2 →
         ∃ k1 k2,
           rankMap !! iso3 r1 = Some k1 ∧ rankMap !! iso3 r2 = Some k2
           ∧ ((p2 <= p1)%Q → (k1 < k2)%nat) ∧ ((p1 < p2)%Q → (k2 < k1)%nat)).
Proof.
  intros Hy Hb ranked Hnd.
  pose proof (rank_subset_loaded raw y b Hb) as Hsub. fold ranked in Hsub.
  destruct (ranks_at_subset (countryRows (loadData raw)) y b)
    as (Hsize & Hranks & Hinj & Hdom & Hord).
  { by rewrite Hsub. }
  rewrite Hsub in Hsize, Hranks, Hdom, Hord.
  exists (ranks_at (countryRows (loadData raw)) y b).
  split_and!; [by apply rankByYearBuffer_lookup|done..| |].
  - intros iso. rewrite Hdom. unfold ranked. split.
    + intros (r & [(? & ? & ?) ?]%list_elem_of_filter & ?). by exists r.
    + intros (r & ? & ? & ? & ? & ?). exists r. split; [|done].
      by apply list_elem_of_filter.
  - intros i j r1 r2 p1 p2 Hij Hi Hj Hy1 Hb1 Hp1 Hy2 Hb2 Hp2.
    apply (Hord r1 r2 p1 p2); [|done..].
    pose proof (lookup_pair_sublist raw r1 r2 i j Hij Hi Hj) as Hpair.
    apply (filter_sublist_mono
             (λ d, year d = y ∧ buffer_km d = b ∧ pct_near d ≠ None)) in Hpair.
    rewrite !filter_cons, filter_nil in Hpair.
    rewrite !decide_True in Hpair; [done|..].
    + by rewrite Hp2.
    + by rewrite Hp1.
Qed.

(** ** Rank queries and the percentile guard *)

Lemma rank_map_lookup_inv (sorted : list row) (iso : string) (k : nat) :
  rank_map sorted !! iso = Some k → ∃ d, d ∈ sorted ∧ iso3 d = iso.
Proof.
  unfold rank_map. intros [Hin|?]%set_all_lookup_inv; [|by simplify_map_eq].
  apply elem_of_lookup_imap in Hin as (i & d & [= -> ->] & Hi).
  exists d. split; [by eapply list_elem_of_lookup_2|done].
Qed.

Lemma pctRank_None (rank denom : option nat) :
  pctRank rank denom = None ↔
  (rank = None ∨ rank = Some O) ∨ (denom = None ∨ denom = Some O).
Proof.
  unfold pctRank. destruct rank as [[|r]|], denom as [[|n]|]; simpl;
    (split; [intros Hx; try discriminate Hx; auto
            |intros [[?|?]|[?|?]]; first [done|congruence]]).
Qed.

Lemma pctRank_Some (rank denom : option nat) (v : quotient) :
  pctRank rank denom = Some v →
  ∃ r n, rank = Some (S r) ∧ denom = Some (S n)
         ∧ v = Ratio ((Z.of_nat (S r) # Pos.of_nat (S n)) * 100)%Q.
Proof.
  unfold pctRank. destruct rank as [[|r]|], denom as [[|n]|]; simpl;
    intros [= <-]. eauto.
Qed.

(** C9: a rank query for an entity that has no non-null percentage at the
    pair answers "absent"; the percentile is computed only when both the
    rank and the denominator are present and non-zero, so that the
    division that is performed never has a zero divisor. *)
Theorem C9_rank_absent_and_guard (raw : list row) (iso : string) (y b : Z) :
  (∀ r, r ∈ countryRows (loadData raw) →
        iso3 r = iso → year r = y → buffer_km r = b → pct_near r = None) →
  rankOf (loadData raw) iso y b = None
  ∧ pctRank (rankOf (loadData raw) iso y b) (denomOf (loadData raw) y b) = None
  ∧ (∀ rank denom,
       pctRank rank denom = None ↔
       (rank = None ∨ rank = Some O) ∨ (denom = None ∨ denom = Some O))
  ∧ (∀ rank denom v,
       pctRank rank denom = Some v →
       ∃ n q, denom = Some (S n) ∧ v = Ratio q).
Proof.
  intros Hnone.
  assert (rankOf (loadData raw) iso y b = None) as Hrank.
  { unfold rankOf.
    change (rankByYearBuffer (loadData raw))
      with (build_rankByYearBuffer (countryRows (loadData raw))).
    destruct (build_rankByYearBuffer _ !! _) as [m|] eqn:Hm; [|done].
    apply rankByYearBuffer_inv in Hm as (_ & _ & ->).
    destruct (ranks_at _ y b !! iso) as [k|] eqn:Hk; [|done].
    apply rank_map_lookup_inv in Hk as (d & Hd & Hiso).
    apply js_sort_elem_of, rank_subset_elem in Hd as [(? & ? & Hp) Hd].
    destruct Hp. by apply Hnone. }
  split_and!; [done| |apply pctRank_None|].
  - rewrite Hrank. apply pctRank_None. by left; left.
  - intros rank denom v (r & n & _ & -> & ->)%pctRank_Some. eauto.
Qed.

(** ** Country codes *)

Lemma all_chars_rev_app P s t :
  all_chars P (String.rev_app s t) = all_chars P s && all_chars P t.
Proof.
  revert t. induction s as [|a s IH]; intros t; simpl; [done|].
  rewrite IH. simpl. by destruct (P a), (all_chars P s).
Qed.

Lemma all_chars_trim_start P s :
  all_chars P s = true → all_chars P (Geo.trim_start s) = true.
Proof.
  induction s as [|a s IH]; simpl; [done|].
  intros [Ha Hs]%andb_true_iff. case_match; [auto|].
  simpl. by rewrite Ha.
Qed.

Lemma all_chars_trim P s :
  all_chars P s = true → all_chars P (Geo.trim s) = true.
Proof.
  intros Hs. unfold Geo.trim, String.rev.
  rewrite all_chars_rev_app, andb_true_r. apply all_chars_trim_start.
  rewrite all_chars_rev_app, andb_true_r. by apply all_chars_trim_start.
Qed.

Lemma is_letter_not_digit (a : ascii) :
  Geo.is_letter a = true → digit_or_sign a = false.
Proof. destruct a as [[] [] [] [] [] [] [] []]; by vm_compute. Qed.

Lemma three_letters_not_printed (s : string) :
  Geo.three_letters s = true → all_chars digit_or_sign s = false.
Proof.
  destruct s as [|a [|b [|c [|??]]]]; simpl; try done.
  intros [[Ha _]%andb_true_iff _]%andb_true_iff.
  by rewrite (is_letter_not_digit a Ha).
Qed.

(** The loop's test on one candidate, and the test on the same candidate
    with its white space removed. *)
Lemma accepted_trimmed (c : Geo.jsval) :
  negb (Geo.truthy c) = false
  ∧ Geo.three_letters (Geo.trim (Geo.toString c)) = true
  ↔ Geo.exactly_three_letters (Geo.trimmed c) = true.
Proof.
  destruct c as [| |s|z]; simpl; [by intuition..| |].
  - split; [by intros [_ ?]|]. intros Hs. split; [|done].
    destruct s; [done|]. by vm_compute.
  - split; [|done]. intros [_ Hz].
    apply three_letters_not_printed in Hz.
    by rewrite all_chars_trim in Hz by apply pretty_Z_chars.
Qed.

Lemma scan_spec_resolve (cs : list Geo.jsval) :
  Geo.scan cs = Geo.spec_resolve (Geo.trimmed <$> cs).
Proof.
  induction cs as [|c cs IH]; [done|].
  rewrite fmap_cons. simpl. rewrite IH.
  pose proof (accepted_trimmed c) as Hc.
  destruct (Geo.exactly_three_letters (Geo.trimmed c)) eqn:He.
  - destruct Hc as [_ [-> ->]]; [done|].
    by destruct c as [| |s|z].
  - destruct (negb (Geo.truthy c)); [done|].
    destruct (Geo.three_letters _); [|done].
    destruct Hc as [Hc _]. by discriminate Hc.
Qed.

Lemma spec_resolve_Some (cs : list Geo.jsval) (code : string) :
  Geo.spec_resolve cs = Some code ↔
  ∃ i s, cs !! i = Some (Geo.JString s)
         ∧ Geo.three_letters s = true
         ∧ (∀ j c, (j < i)%nat → cs !! j = Some c →
                   Geo.exactly_three_letters c = false)
         ∧ code = Geo.canonical (Geo.toUpperCase s).
Proof.
  revert code. induction cs as [|c cs IH]; intros code; simpl.
  { split; [done|]. by intros (i & s & ? & _). }
  destruct (Geo.exactly_three_letters c) eqn:Hc.
  - split.
    + intros [= <-]. destruct c as [| |s|z]; try done.
      exists O, s. split_and!; [done..|intros; lia|done].
    + intros (i & s & Hi & Hs & Hfirst & ->). destruct i as [|i].
      * by injection Hi as ->.
      * rewrite (Hfirst O c) in Hc by (done || lia). done.
  - rewrite IH. split.
    + intros (i & s & Hi & Hs & Hfirst & ->).
      exists (S i), s. split_and!; [done..| |done].
      intros [|j] c' Hj; simpl; [by intros [= <-]|].
      apply Hfirst. lia.
    + intros (i & s & Hi & Hs & Hfirst & ->). destruct i as [|i].
      * injection Hi as ->. simpl in Hc. congruence.
      * exists i, s. split_and!; [done..| |done].
        intros j c' Hj. apply (Hfirst (S j)). lia.
Qed.

Lemma spec_resolve_None (cs : list Geo.jsval) :
  Geo.spec_resolve cs = None ↔
  ∀ c, c ∈ cs → Geo.exactly_three_letters c = false.
Proof.
  induction cs as [|c cs IH]; simpl.
  { split; [|done]. by intros _ c ?%elem_of_nil. }
  destruct (Geo.exactly_three_letters c) eqn:Hc.
  - split; [done|]. intros Hall. rewrite Hall in Hc by left. done.
  - rewrite IH. split.
    + intros Hall c' [->|?]%elem_of_cons; auto.
    + intros Hall c' ?. apply Hall. by right.
Qed.

Lemma trimmed_lookup (cs : list Geo.jsval) (i : nat) (t : string) :
  (Geo.trimmed <$> cs) !! i = Some (Geo.JString t) ↔
  ∃ s, cs !! i = Some (Geo.JString s) ∧ t = Geo.trim s.
Proof.
  rewrite list_lookup_fmap. destruct (cs !! i) as [[| |s|z]|]; simpl;
    try (split; [done|by intros (? & ? & _)]).
  split; [intros [= <-]; eauto|]. by intros (s' & [= <-] & ->).
Qed.

(** C8, as written, fails on a padded code: the loop trims the candidate
    before the three-letter test, so [" fra "] resolves to FRA although
    it is not exactly three letters. *)
Lemma C8_padded_code_counterexample :
  let f := Geo.Feature (Geo.JString " fra ") None in
  Geo.featureIso3 f = Some "FRA"
  ∧ Geo.spec_resolve (Geo.candidates f) = None.
Proof. by vm_compute. Qed.

(** C8, amended: the resolution scans the feature id and then the six
    property spellings in order, takes the first candidate that is
    exactly three letters once the white space around it is removed,
    puts it in upper case and through the alias table (ANT to NLD, KOS to
    XKX); it answers null exactly when no candidate passes. *)
Theorem C8_featureIso3_resolution (f : Geo.feature) :
  let p := default Geo.no_props (Geo.properties f) in
  Geo.candidates f
  = [Geo.id f; Geo.iso_a3 p; Geo.ISO_A3 p; Geo.adm0_a3 p; Geo.ADM0_A3 p;
     Geo.iso3 p; Geo.ISO3 p]
  ∧ Geo.featureIso3 f = Geo.spec_resolve (Geo.trimmed <$> Geo.candidates f)
  ∧ (∀ code,
       Geo.featureIso3 f = Some code ↔
       ∃ i s, Geo.candidates f !! i = Some (Geo.JString s)
              ∧ Geo.three_letters (Geo.trim s) = true
              ∧ (∀ j c, (j < i)%nat → Geo.candidates f !! j = Some c →
                        Geo.exactly_three_letters (Geo.trimmed c) = false)
              ∧ code = Geo.canonical (Geo.toUpperCase (Geo.trim s)))
  ∧ (Geo.featureIso3 f = None ↔
     ∀ c, c ∈ Geo.candidates f →
          Geo.exactly_three_letters (Geo.trimmed c) = false)
  ∧ Geo.canonical "ANT" = "NLD"
  ∧ Geo.canonical "KOS" = "XKX"
  ∧ (∀ up, up ≠ "ANT" → up ≠ "KOS" → Geo.canonical up = up).
Proof.
  intros p. unfold Geo.featureIso3.
  split_and!; [done|apply scan_spec_resolve| | |done|done|].
  - intros code. rewrite scan_spec_resolve, spec_resolve_Some. split.
    + intros (i & t & (s & Hi & ->)%trimmed_lookup & Ht & Hfirst & ->).
      exists i, s. split_and!; [done..| |done].
      intros j c Hj Hc. apply (Hfirst j); [done|].
      by rewrite list_lookup_fmap, Hc.
    + intros (i & s & Hi & Hs & Hfirst & ->).
      exists i, (Geo.trim s). split_and!; [|done| |done].
      * apply trimmed_lookup. eauto.
      * intros j c Hj. rewrite list_lookup_fmap.
        destruct (Geo.candidates f !! j) as [c'|] eqn:Hc'; [|done].
        intros [= <-]. by apply (Hfirst j).
  - rewrite scan_spec_resolve, spec_resolve_None. split.
    + intros Hall c Hc. apply Hall, list_elem_of_fmap. eauto.
    + intros Hall c' (c & -> & Hc)%list_elem_of_fmap. auto.
  - intros up H1 H2. unfold Geo.canonical, Geo.alias. simpl.
    by rewrite !decide_False by done.
Qed.

(** ** Playback *)

Lemma playback_inv_step (w : View.world) (e : View.event) :
  playback_inv w → playback_inv (View.step w e).
Proof.
  destruct w as [[y b sel sp pl] pt ts nh]. unfold playback_inv. simpl.
  intros [Hnh Hw]. destruct e as [|h'|y'|b'|v|f]; simpl; try done.
  - destruct pl.
    + destruct Hw as (h & idx & -> & -> & Hh).
      unfold View.stopPlayback. simpl. destruct h as [|h]; [lia|]. simpl.
      split; [done|]. split; [done|].
      unfold View.clearInterval. by rewrite filter_cons, decide_False by (simpl; auto).
    + destruct Hw as [-> ->]. simpl. split; [lia|].
      eexists _, _. split_and!; [done..|lia|lia].
  - unfold View.tick. simpl. destruct pl.
    + destruct Hw as (h & idx & -> & -> & Hh). simpl.
      destruct (decide (h = h')); simpl; eauto 10.
    + by destruct Hw as [-> ->].
  - destruct (Geo.featureIso3 f); simpl; done.
Qed.

Lemma reachable_playback_inv (w : View.world) :
  View.reachable w → playback_inv w.
Proof.
  induction 1 as [|w e _ IH]; [|by apply playback_inv_step].
  split; [done|]. by simpl.
Qed.

Lemma stopPlayback_stopped (w : View.world) :
  View.playing (View.state w) = false → View.playTimer w = None →
  View.stopPlayback w = w.
Proof.
  destruct w as [[y b sel sp pl] pt ts nh]. simpl. by intros -> ->.
Qed.

(** C5, as written, fails on [startPlayback] itself: it has no guard, and
    called on a page that is playing it installs a second interval next
    to the first. *)
Lemma C5_unguarded_start_counterexample :
  let w := View.startPlayback View.init in
  View.playing (View.state w) = true
  ∧ View.startPlayback w ≠ w
  ∧ length (View.timers (View.startPlayback w)) = 2%nat.
Proof. split_and!; [done| |done]. by intros [=]. Qed.

(** C5, amended: the play button calls [startPlayback] only when
    [state.playing] is off and [stopPlayback] otherwise, so in no state
    the events can produce are two intervals active (there is one while
    playing and none otherwise); [stopPlayback] on a stopped page leaves
    it as it is. *)
Theorem C5_playback_guard (w : View.world) :
  View.reachable w →
  (length (View.timers w) ≤ 1)%nat
  ∧ (View.playing (View.state w) = true ↔ length (View.timers w) = 1%nat)
  ∧ (View.playing (View.state w) = true →
     View.step w View.PlayClick = View.stopPlayback w
     ∧ View.timers (View.step w View.PlayClick) = [])
  ∧ (View.playing (View.state w) = false →
     View.step w View.PlayClick = View.startPlayback w
     ∧ View.stopPlayback w = w).
Proof.
  intros Hr. pose proof (reachable_playback_inv w Hr) as [Hnh Hw].
  pose proof (reachable_playback_inv _ (View.reach_step w View.PlayClick Hr))
    as [_ Hw'].
  simpl in *. destruct (View.playing (View.state w)) eqn:Hpl.
  - destruct Hw as (h & idx & Hpt & Hts & Hh). rewrite Hts. simpl.
    split_and!; [lia|done| |done].
    intros _. split; [done|].
    assert (View.playing (View.state (View.stopPlayback w)) = false) as Hoff.
    { unfold View.stopPlayback. by repeat case_match. }
    rewrite Hoff in Hw'. by destruct Hw'.
  - destruct Hw as [Hpt Hts]. rewrite Hts. simpl.
    split_and!; [lia|done|done|].
    intros _. split; [done|]. by apply stopPlayback_stopped.
Qed.

Lemma C5_playback_guard_witness :
  View.reachable (View.run View.init [View.PlayClick; View.Tick 1])
  ∧ (length (View.timers (View.run View.init [View.PlayClick; View.Tick 1]))
     ≤ 1)%nat.
Proof.
  assert (View.reachable (View.run View.init [View.PlayClick; View.Tick 1]))
    as Hr by (repeat constructor).
  split; [exact Hr|].
  exact (proj1 (C5_playback_guard _ Hr)).
Defined.

Lemma ticks_S (h n : nat) (w : View.world) :
  View.ticks h (S n) w = View.tick h (View.ticks h n w).
Proof. reflexivity. Qed.

Lemma indexOf_years (i : nat) (y : Z) :
  years !! i = Some y → View.indexOf years y = Z.of_nat i.
Proof.
  destruct i as [|[|[|i]]]; simpl; try done; by intros [= <-].
Qed.

(** After [n] firings the only interval has moved its index [n] places
    round the cycle and [state.year] is the year at that index. *)
Lemma ticks_single_timer (w : View.world) (h : nat) (idx : Z) (n : nat) :
  View.timers w = [(h, idx)] → (0 ≤ idx < 3)%Z →
  View.year (View.state w) = View.year_at idx →
  let wn := View.ticks h n w in
  View.timers wn = [(h, ((idx + Z.of_nat n) `mod` 3)%Z)]
  ∧ View.year (View.state wn) = View.year_at ((idx + Z.of_nat n) `mod` 3)%Z
  ∧ View.playing (View.state wn) = View.playing (View.state w)
  ∧ View.playTimer wn = View.playTimer w.
Proof.
  intros Hts Hidx Hy. induction n as [|n IH].
  - simpl. rewrite Z.add_0_r, Z.mod_small by done. done.
  - rewrite ticks_S. destruct IH as (IHt & _ & IHp & IHpt).
    unfold View.tick. rewrite IHt. simpl. rewrite decide_True by done. simpl.
    assert ((((idx + Z.of_nat n) `mod` 3 + 1) `mod` 3
             = (idx + Z.of_nat (S n)) `mod` 3)%Z) as E.
    { rewrite Zplus_mod_idemp_l. f_equal. lia. }
    change (Z.of_nat 3) with 3%Z. by rewrite E.
Qed.

Lemma indexOf_years_range (y : Z) : (-1 ≤ View.indexOf years y < 3)%Z.
Proof.
  unfold View.indexOf, years. simpl. repeat case_match; lia.
Qed.

(** The index an interval closes over is a position of the sequence. *)
Lemma reachable_index_range (w : View.world) (h : nat) (idx : Z) :
  View.reachable w → View.timers w = [(h, idx)] → (0 ≤ idx < 3)%Z.
Proof.
  intros Hr. revert h idx.
  induction Hr as [|w e Hr IH]; [done|]. intros h idx.
  pose proof (reachable_playback_inv w Hr) as [_ Hw].
  destruct w as [[y b sel sp pl] pt ts nh]. simpl in *.
  destruct e as [|h'|y'|b'|v|f]; simpl; try (by apply IH).
  - destruct pl.
    + destruct Hw as (h0 & idx0 & -> & -> & Hh).
      unfold View.stopPlayback. simpl. destruct h0 as [|h0]; [lia|]. simpl.
      unfold View.clearInterval.
      by rewrite filter_cons, decide_False by (simpl; auto).
    + destruct Hw as [-> ->]. unfold View.startPlayback. simpl.
      intros [= _ <-]. pose proof (indexOf_years_range y).
      destruct (Z.ltb_spec (View.indexOf years y) 0); lia.
  - unfold View.tick. simpl. destruct pl.
    + destruct Hw as (h0 & idx0 & -> & -> & Hh). simpl.
      destruct (decide (h0 = h')); simpl; [|by apply IH].
      intros [= _ <-]. change (Z.of_nat 3) with 3%Z.
      apply Z.mod_pos_bound. lia.
    + by destruct Hw as [-> ->].
  - destruct (Geo.featureIso3 f); simpl; by apply IH.
Qed.

Lemma year_at_lookup (i : nat) :
  (i < 3)%nat → years !! i = Some (View.year_at (Z.of_nat i)).
Proof.
  intros Hi. unfold View.year_at. rewrite Nat2Z.id.
  destruct (years !! i) eqn:E; [done|].
  apply lookup_ge_None in E. simpl in E. lia.
Qed.

Lemma year_at_inj (i j : Z) :
  (0 ≤ i < 3)%Z → (0 ≤ j < 3)%Z → View.year_at i = View.year_at j → i = j.
Proof.
  intros Hi Hj.
  assert (i = 0 ∨ i = 1 ∨ i = 2)%Z as [-> |[-> | ->]] by lia;
    assert (j = 0 ∨ j = 1 ∨ j = 2)%Z as [-> |[-> | ->]] by lia;
    by vm_compute.
Qed.

Lemma next_index (i n : nat) :
  Z.to_nat ((Z.of_nat i + Z.of_nat n) `mod` 3) = ((i + n) `mod` 3)%nat.
Proof.
  rewrite <- Nat2Z.inj_add. change 3%Z with (Z.of_nat 3).
  by rewrite <- Nat2Z.inj_mod, Nat2Z.id.
Qed.

Lemma firings_snoc (h : nat) (es : list View.event) (e : View.event) :
  firings h (es ++ [e])
  = (firings h es + if is_tick h e then 1 else 0)%nat.
Proof.
  unfold firings. rewrite filter_app, length_app, filter_cons, filter_nil.
  by destruct (is_tick h e).
Qed.

(** While nobody touches the slider or the play button, the year shown
    is the one at the interval's index, which has moved one place round
    the cycle for each firing. *)
Lemma playback_follows_index (w : View.world) (h : nat) (idx : Z)
    (es : list View.event) :
  View.timers w = [(h, idx)] → View.playTimer w = Some h →
  View.playing (View.state w) = true →
  View.year (View.state w) = View.year_at idx →
  (0 ≤ idx < 3)%Z →
  Forall hands_off es →
  let wn := View.run w es in
  let idx' := ((idx + Z.of_nat (firings h es)) `mod` 3)%Z in
  View.timers wn = [(h, idx')] ∧ View.playTimer wn = Some h
  ∧ View.playing (View.state wn) = true
  ∧ View.year (View.state wn) = View.year_at idx'.
Proof.
  intros Hts Hpt Hpl Hy Hidx Hes. simpl.
  induction es as [|e es IH] using rev_ind.
  - unfold firings. simpl. rewrite Z.add_0_r, Z.mod_small by done. done.
  - apply Forall_app in Hes as [Hes [He _]%Forall_cons].
    destruct (IH Hes) as (IHt & IHpt & IHpl & IHy).
    unfold View.run in *. rewrite foldl_snoc, firings_snoc.
    destruct (foldl View.step w es) as [[y b sel sp pl] pt ts nh].
    simpl in IHt, IHpt, IHpl, IHy. subst ts pt pl.
    destruct e as [|h'|y'|b'|v|f]; simpl in He |- *; try done.
    + unfold View.tick. simpl.
      destruct (decide (h = h')) as [<-|Hne].
      * rewrite bool_decide_eq_true_2 by done. simpl.
        change (Z.of_nat 3) with 3%Z.
        assert ((((idx + Z.of_nat (firings h es)) `mod` 3 + 1) `mod` 3
                 = (idx + Z.of_nat (firings h es + 1)) `mod` 3)%Z) as ->.
        { rewrite Zplus_mod_idemp_l. f_equal. lia. }
        done.
      * rewrite bool_decide_eq_false_2 by done. simpl.
        by rewrite Nat.add_0_r.
    + by rewrite Nat.add_0_r.
    + by rewrite Nat.add_0_r.
    + rewrite Nat.add_0_r. by destruct (Geo.featureIso3 f).
Qed.

(** C6, as written, fails when the slider is used while playback runs:
    after playback from 1990 has ticked once and the slider is set to
    2010, the page is playing and shows 2010, the last year of the
    sequence, and the next tick shows 2010 again, not 1990. *)
Lemma C6_slider_between_ticks_counterexample :
  let w := View.run View.init
             [View.YearInput 1990; View.PlayClick; View.Tick 1;
              View.YearInput 2010] in
  View.reachable w
  ∧ slider_value 2010
  ∧ View.playing (View.state w) = true
  ∧ View.playTimer w = Some 1%nat
  ∧ View.year (View.state w) = 2010%Z
  ∧ View.year (View.state (View.step w (View.Tick 1))) = 2010%Z
  ∧ years !! 2%nat = Some 2010%Z ∧ years !! 0%nat = Some 1990%Z.
Proof.
  split_and!; first [done | by repeat constructor | by vm_compute].
Qed.

(** C6, amended: on a playing page a tick moves the interval's own index
    to the next position of the sequence, wrapping after the last, and
    shows the year at that index; when the year shown is the one at the
    index this is the next year of the sequence.  The index is set from
    the year shown when playback starts and follows no slider input: as
    long as the slider and the play button are left alone the year shown
    after the start is as many places further round the sequence as the
    interval has fired, so [n] ticks in a row show the year [n] places
    on; from 1990 three ticks show 2000, 2010 and 1990. *)
Theorem C6_tick_advances_playback_index (w : View.world) (i : nat)
    (es : list View.event) :
  View.reachable w →
  (View.playing (View.state w) = true →
   ∃ h idx,
     View.playTimer w = Some h ∧ View.timers w = [(h, idx)]
     ∧ (0 ≤ idx < 3)%Z
     ∧ View.timers (View.step w (View.Tick h)) = [(h, ((idx + 1) `mod` 3)%Z)]
     ∧ View.year (View.state (View.step w (View.Tick h)))
       = View.year_at ((idx + 1) `mod` 3)
     ∧ View.playing (View.state (View.step w (View.Tick h))) = true
     ∧ (years !! i = Some (View.year (View.state w)) →
        View.year (View.state w) = View.year_at idx →
        years !! ((i + 1) `mod` 3)%nat
        = Some (View.year (View.state (View.step w (View.Tick h))))))
  ∧ (View.playing (View.state w) = false →
     years !! i = Some (View.year (View.state w)) →
     Forall hands_off es →
     let w0 := View.step w View.PlayClick in
     ∃ h, View.playTimer w0 = Some h
          ∧ View.playing (View.state (View.run w0 es)) = true
          ∧ years !! ((i + firings h es) `mod` 3)%nat
            = Some (View.year (View.state (View.run w0 es)))
          ∧ ∀ n, View.ticks h (S n) w0
                 = View.step (View.ticks h n w0) (View.Tick h)
                 ∧ years !! ((i + n) `mod` 3)%nat
                   = Some (View.year (View.state (View.ticks h n w0))))
  ∧ (let s := View.step View.init (View.YearInput 1990) in
     View.year (View.state (View.run s [View.PlayClick])) = 1990%Z
     ∧ View.year (View.state (View.run s [View.PlayClick; View.Tick 1]))
       = 2000%Z
     ∧ View.year
         (View.state (View.run s [View.PlayClick; View.Tick 1; View.Tick 1]))
       = 2010%Z
     ∧ View.year
         (View.state
            (View.run s [View.PlayClick; View.Tick 1; View.Tick 1; View.Tick 1]))
       = 1990%Z).
Proof.
  intros Hr. pose proof (reachable_playback_inv w Hr) as [Hnh Hw].
  split_and!; [| |done].
  - intros Hpl. rewrite Hpl in Hw. destruct Hw as (h & idx & Hpt & Hts & Hh).
    pose proof (reachable_index_range w h idx Hr Hts) as Hidx.
    exists h, idx.
    assert (View.step w (View.Tick h)
            = View.World
                (View.set_year (View.year_at ((idx + 1) `mod` 3)) (View.state w))
                (View.playTimer w) [(h, ((idx + 1) `mod` 3)%Z)]
                (View.nextHandle w)) as ->.
    { simpl. unfold View.tick. rewrite Hts. simpl.
      by rewrite decide_True by done. }
    split_and!; [first [done|by simpl|lia]..|].
    intros Hi Hsync. cbn [View.state View.set_year View.year].
    assert (i < 3)%nat as Hi3 by (apply lookup_lt_Some in Hi; simpl in Hi; lia).
    assert (idx = Z.of_nat i) as ->.
    { apply year_at_inj; [done|lia|].
      rewrite <- Hsync. apply (inj Some). by rewrite <- Hi, year_at_lookup. }
    change 1%Z with (Z.of_nat 1). rewrite <- (next_index i 1).
    rewrite (year_at_lookup (Z.to_nat _)).
    + by rewrite Z2Nat.id by (apply Z.mod_pos_bound; lia).
    + rewrite next_index. apply Nat.mod_upper_bound. lia.
  - intros Hpl Hi Hes w0. rewrite Hpl in Hw. destruct Hw as [Hpt Hts].
    assert (i < 3)%nat as Hi3 by (apply lookup_lt_Some in Hi; simpl in Hi; lia).
    assert (w0 = View.startPlayback w) as Hw0
      by (unfold w0; simpl; by rewrite Hpl).
    exists (View.nextHandle w).
    destruct (playback_follows_index w0 (View.nextHandle w) (Z.of_nat i) es)
      as (_ & _ & Hp & Hy); [..|done|].
    { rewrite Hw0. unfold View.startPlayback. simpl.
      rewrite Hts, (indexOf_years i) by done. simpl.
      by destruct (Z.ltb_spec (Z.of_nat i) 0); [lia|]. }
    { by rewrite Hw0. }
    { by rewrite Hw0. }
    { rewrite Hw0. simpl. apply (inj Some). by rewrite <- Hi, year_at_lookup. }
    { lia. }
    split_and!; [by rewrite Hw0|done| |].
    + rewrite Hy, <- next_index, (year_at_lookup (Z.to_nat _)).
      * by rewrite Z2Nat.id by (apply Z.mod_pos_bound; lia).
      * rewrite next_index. apply Nat.mod_upper_bound. lia.
    + intros n. split; [done|].
      destruct (ticks_single_timer w0 (View.nextHandle w) (Z.of_nat i) n)
        as (_ & Hyn & _).
      { rewrite Hw0. unfold View.startPlayback. simpl.
        rewrite Hts, (indexOf_years i) by done. simpl.
        by destruct (Z.ltb_spec (Z.of_nat i) 0); [lia|]. }
      { lia. }
      { rewrite Hw0. simpl. apply (inj Some). by rewrite <- Hi, year_at_lookup. }
      rewrite Hyn, <- next_index, (year_at_lookup (Z.to_nat _)).
      * by rewrite Z2Nat.id by (apply Z.mod_pos_bound; lia).
      * rewrite next_index. apply Nat.mod_upper_bound. lia.
Qed.

Lemma C6_tick_advances_playback_index_witness :
  years !! ((1 + firings 1 [View.Tick 1; View.BufferChange 75; View.Tick 1])
              `mod` 3)%nat
  = Some (View.year
            (View.state
               (View.run
                  (View.step (View.step View.init (View.YearInput 2000))
                             View.PlayClick)
                  [View.Tick 1; View.BufferChange 75; View.Tick 1]))).
Proof.
  destruct (C6_tick_advances_playback_index
              (View.step View.init (View.YearInput 2000)) 1
              [View.Tick 1; View.BufferChange 75; View.Tick 1])
    as (_ & Hrun & _).
  - repeat constructor.
  - destruct Hrun as (h & Hh & _ & Hy & _).
    + reflexivity.
    + reflexivity.
    + repeat constructor.
    + injection Hh as <-. exact Hy.
Defined.

(** ** Grouping *)

Lemma foldl_bind {A B C} (f : A → C → A) (g : B → list C) (l : list B) (a : A) :
  foldl f a (l ≫= g) = foldl (λ a x, foldl f a (g x)) a l.
Proof.
  revert a. induction l as [|x l IH]; intros a; [done|].
  rewrite bind_cons, foldl_app. apply IH.
Qed.

Lemma foldl_ext_in {A B} (f g : A → B → A) (l : list B) (a : A) :
  (∀ a x, x ∈ l → f a x = g a x) → foldl f a l = foldl g a l.
Proof.
  revert a. induction l as [|x l IH]; intros a Hfg; [done|].
  simpl. rewrite Hfg by left. apply IH. intros ???. apply Hfg. by right.
Qed.

Lemma bind_perm_in {A B} (f g : A → list B) (l : list A) :
  (∀ x, x ∈ l → f x ≡ₚ g x) → l ≫= f ≡ₚ l ≫= g.
Proof.
  induction l as [|x l IH]; intros Hfg; [done|].
  rewrite !bind_cons, Hfg by left. f_equiv. apply IH.
  intros ??. apply Hfg. by right.
Qed.

Lemma bind_nil_in {A B} (f : A → list B) (l : list A) :
  (∀ x, x ∈ l → f x = []) → l ≫= f = [].
Proof.
  induction l as [|x l IH]; intros Hf; [done|].
  rewrite bind_cons, Hf by left. apply IH. intros ??. apply Hf. by right.
Qed.

Section group_facts.
Context {K : Type} `{EqDecision K} (key : row → K).

Lemma group_keys_elem (l : list row) (k : K) :
  k ∈ group_keys key l ↔ ∃ d, d ∈ l ∧ key d = k.
Proof.
  induction l as [|d l IH]; simpl.
  { split; [by intros ?%elem_of_nil|]. by intros (? & ?%elem_of_nil & _). }
  rewrite elem_of_cons, list_elem_of_filter, IH. split.
  - intros [->|[_ (d' & ? & <-)]]; [exists d|exists d'];
      (split; [|done]); [by left|by right].
  - intros (d' & [->|?]%elem_of_cons & <-); [by left|].
    destruct (decide (key d' = key d)); [by left|]. right. eauto.
Qed.

Lemma group_keys_NoDup (l : list row) : NoDup (group_keys key l).
Proof.
  induction l as [|d l IH]; simpl; [constructor|].
  apply NoDup_cons. split; [|by apply NoDup_filter].
  rewrite list_elem_of_filter. by intros [? _].
Qed.

Lemma group_elem (l : list row) (k : K) (rs : list row) :
  (k, rs) ∈ group key l →
  rs = filter (λ d, key d = k) l ∧ k ∈ group_keys key l.
Proof.
  unfold group. by intros (k' & [= -> ->] & ?)%list_elem_of_fmap.
Qed.

Lemma group_member (l : list row) (k : K) (rs : list row) (d : row) :
  (k, rs) ∈ group key l → d ∈ rs → key d = k ∧ d ∈ l.
Proof.
  intros [-> _]%group_elem Hd. by apply list_elem_of_filter in Hd.
Qed.

(** The groups hold every row once. *)
Lemma filter_keys_perm (ks : list K) (l : list row) :
  NoDup ks → (∀ d, d ∈ l → key d ∈ ks) →
  ks ≫= (λ k, filter (λ d, key d = k) l) ≡ₚ l.
Proof.
  intros Hnd. induction l as [|d l IH]; intros Hks.
  { by rewrite bind_nil_in. }
  destruct (list_elem_of_split ks (key d)) as (ks1 & ks2 & ->);
    [apply Hks; by left|].
  apply NoDup_app in Hnd as (Hnd1 & Hdisj & [Hk2 Hnd2]%NoDup_cons).
  assert (∀ ks', key d ∉ ks' →
    ks' ≫= (λ k, filter (λ d', key d' = k) (d :: l))
    = ks' ≫= (λ k, filter (λ d', key d' = k) l)) as Hskip.
  { intros ks' Hks'. induction ks' as [|k ks' IHk]; [done|].
    apply not_elem_of_cons in Hks' as [Hk Hks'].
    rewrite !bind_cons, IHk by done.
    by rewrite filter_cons, decide_False by done. }
  assert (key d ∉ ks1) as Hk1.
  { intros Hin. apply (Hdisj _ Hin). by left. }
  rewrite bind_app, bind_cons, (Hskip ks1 Hk1), (Hskip ks2 Hk2).
  rewrite filter_cons, decide_True by done.
  rewrite <- app_comm_cons, <- Permutation_middle. constructor.
  transitivity ((ks1 ++ key d :: ks2) ≫= (λ k, filter (λ d', key d' = k) l)).
  - by rewrite bind_app, bind_cons.
  - apply IH. intros d' ?. apply Hks. by right.
Qed.

Lemma group_bind_perm {B} (F : row → B) (l : list row) :
  group key l ≫= (λ g, F <$> g.2) ≡ₚ F <$> l.
Proof.
  unfold group. rewrite list_fmap_bind.
  transitivity (F <$> (group_keys key l ≫= λ k, filter (λ d, key d = k) l)).
  - induction (group_keys key l) as [|k ks IH]; [done|].
    rewrite !bind_cons, fmap_app. simpl. by rewrite IH.
  - rewrite filter_keys_perm; [done|apply group_keys_NoDup|].
    intros d ?. apply group_keys_elem. eauto.
Qed.
End group_facts.

(** ** The decade-change walk and its log *)

Lemma walk_step_record iso b (s : deltas) (prev : option row) (r : row) :
  walk_step iso b (s, prev) r
  = (record_delta s
       (Emit iso (year r) b
             (match prev with None => None | Some p => decade_delta p r end)),
     Some r).
Proof. by destruct prev. Qed.

Lemma foldl_walk_step iso b (s : deltas) (prev : option row) (l : list row) :
  (foldl (walk_step iso b) (s, prev) l).1
  = foldl record_delta s (walk_log iso b prev l).
Proof.
  revert s prev. induction l as [|r l IH]; intros s prev; [done|].
  change (foldl (walk_step iso b) (s, prev) (r :: l))
    with (foldl (walk_step iso b) (walk_step iso b (s, prev) r) l).
  rewrite walk_step_record. apply IH.
Qed.

(** The walk of [loadData] is the fold of the log's entries. *)
Lemma build_deltas_log (rows : list row) :
  build_deltas rows = foldl record_delta (Deltas ∅ ∅) (delta_log rows).
Proof.
  unfold build_deltas, delta_log. rewrite foldl_bind.
  apply foldl_ext_in. intros s g _. rewrite foldl_bind.
  apply foldl_ext_in. intros s' h _. apply foldl_walk_step.
Qed.

Lemma record_delta_map (s : deltas) (log : list emitted) :
  deltaExposureByKey (foldl record_delta s log)
  = set_all (deltaExposureByKey s) (em_set <$> log).
Proof.
  revert s. induction log as [|e log IH]; intros s; [done|].
  simpl. by rewrite IH.
Qed.

Lemma elem_of_snoc {A} (l : list A) (x y : A) :
  y ∈ l ++ [x] ↔ y ∈ l ∨ y = x.
Proof. by rewrite elem_of_app, list_elem_of_singleton. Qed.

Lemma max_inv_snoc (s : deltas) (log : list emitted) (e : emitted) :
  max_inv (maxDeltaByBuffer s) log →
  max_inv (maxDeltaByBuffer (record_delta s e)) (log ++ [e]).
Proof.
  intros Hinv b. pose proof (Hinv b) as Hb.
  pose proof (Hinv (em_buffer e)) as He.
  unfold record_delta. simpl.
  assert (∀ v,
    (∃ e0, e0 ∈ log ∧ em_buffer e0 = b ∧ em_delta e0 = Some v) →
    ∃ e0, e0 ∈ log ++ [e] ∧ em_buffer e0 = b ∧ em_delta e0 = Some v) as Hold.
  { intros v (e0 & ? & ? & ?). exists e0. rewrite elem_of_snoc. auto. }
  destruct (em_delta e) as [z|] eqn:Hz;
    [destruct (Z.ltb_spec (default 0%Z (maxDeltaByBuffer s !! em_buffer e)) z)
       as [Hlt|Hge];
     [destruct (decide (em_buffer e = b)) as [<-|Hne];
      [rewrite lookup_insert_eq|rewrite lookup_insert_ne by done]|]|].
  - (* the entry raises the maximum of its own buffer *)
    assert (0 < z ∧ ∀ e' z', e' ∈ log → em_buffer e' = em_buffer e →
              em_delta e' = Some z' → z' ≤ z)%Z as [Hpos Hmax].
    { destruct (maxDeltaByBuffer s !! em_buffer e) as [v|]; simpl in Hlt.
      - destruct He as (Hv & _ & Hmax). split; [lia|].
        intros e' z' ???. etrans; [by eapply Hmax|lia].
      - split; [lia|]. intros e' z' ???. etrans; [by eapply He|lia]. }
    split_and!; [done| |].
    + exists e. rewrite elem_of_snoc. auto.
    + intros e' z' [?| ->]%elem_of_snoc ? Hd; [by eapply Hmax|].
      rewrite Hz in Hd. injection Hd as <-. lia.
  - (* it raises the maximum of another buffer *)
    destruct (maxDeltaByBuffer s !! b) as [v|].
    + destruct Hb as (Hv & Hex & Hmax). split_and!; [done|by apply Hold|].
      intros e' z' [?| ->]%elem_of_snoc ? Hd; [by eapply Hmax|done].
    + intros e' z' [?| ->]%elem_of_snoc ? Hd; [by eapply Hb|done].
  - (* it does not exceed the maximum *)
    destruct (maxDeltaByBuffer s !! b) as [v|] eqn:Hv.
    + destruct Hb as (Hpos & Hex & Hmax). split_and!; [done|by apply Hold|].
      intros e' z' [?| ->]%elem_of_snoc Hbuf Hd; [by eapply Hmax|].
      rewrite Hbuf, Hv in Hge. simpl in Hge.
      rewrite Hz in Hd. injection Hd as <-. done.
    + intros e' z' [?| ->]%elem_of_snoc Hbuf Hd; [by eapply Hb|].
      rewrite Hbuf, Hv in Hge. simpl in Hge.
      rewrite Hz in Hd. injection Hd as <-. done.
  - (* it carries no value *)
    destruct (maxDeltaByBuffer s !! b) as [v|].
    + destruct Hb as (Hpos & Hex & Hmax). split_and!; [done|by apply Hold|].
      intros e' z' [?| ->]%elem_of_snoc ? Hd; [by eapply Hmax|].
      by rewrite Hz in Hd.
    + intros e' z' [?| ->]%elem_of_snoc ? Hd; [by eapply Hb|].
      by rewrite Hz in Hd.
Qed.

Lemma max_inv_log (log : list emitted) :
  max_inv (maxDeltaByBuffer (foldl record_delta (Deltas ∅ ∅) log)) log.
Proof.
  induction log as [|e log IH] using rev_ind.
  - intros b. simpl. rewrite lookup_empty. by intros e z ?%elem_of_nil.
  - rewrite foldl_snoc. by apply max_inv_snoc.
Qed.

(** C10: once the walk is done, the per-buffer maximum has an entry for a
    buffer exactly when the walk computed a strictly positive delta for
    that buffer, every stored value is strictly positive, and an entry
    whose delta is 0 or "no value" leaves the map as it was. *)
Theorem C10_max_delta_entries (raw : list row) (b : Z) :
  let d := loadData raw in
  let log := delta_log (countryRows d) in
  let m := maxDeltaByBuffer (deltaIndex d) in
  deltaIndex d = foldl record_delta (Deltas ∅ ∅) log
  ∧ (is_Some (m !! b) ↔
     ∃ e z, e ∈ log ∧ em_buffer e = b ∧ em_delta e = Some z ∧ (0 < z)%Z)
  ∧ (∀ v, m !! b = Some v → (0 < v)%Z)
  ∧ (∀ pre e post,
       log = pre ++ e :: post →
       em_delta e = None ∨ em_delta e = Some 0%Z →
       maxDeltaByBuffer (foldl record_delta (Deltas ∅ ∅) (pre ++ [e]))
       = maxDeltaByBuffer (foldl record_delta (Deltas ∅ ∅) pre)).
Proof.
  intros d log m.
  assert (deltaIndex d = foldl record_delta (Deltas ∅ ∅) log) as Hlog
    by apply build_deltas_log.
  pose proof (max_inv_log log b) as Hinv.
  rewrite <- Hlog in Hinv. fold m in Hinv.
  split_and!; [done| | |].
  - destruct (m !! b) as [v|].
    + destruct Hinv as (Hv & (e & ? & ? & ?) & _). split; [|by eauto].
      intros _. exists e, v. done.
    + split; [by intros [? ?]|]. intros (e & z & Hin & Hbuf & Hd & Hz).
      specialize (Hinv e z Hin Hbuf Hd). lia.
  - intros v Hv. rewrite Hv in Hinv. by destruct Hinv.
  - intros pre e post _ He. rewrite foldl_snoc. unfold record_delta. simpl.
    destruct He as [->| ->]; [done|].
    pose proof (max_inv_log pre (em_buffer e)) as Hpre.
    destruct (maxDeltaByBuffer _ !! em_buffer e) as [v|]; simpl.
    + destruct Hpre as [Hv _]. by destruct (Z.ltb_spec v 0); [lia|].
    + done.
Qed.

(** ** The log against the delta index *)

Lemma fmap_bind_comm {A B C} (f : B → C) (g : A → list B) (l : list A) :
  f <$> (l ≫= g) = l ≫= (λ x, f <$> g x).
Proof.
  induction l as [|x l IH]; [done|].
  by rewrite !bind_cons, fmap_app, IH.
Qed.

Lemma walk_log_key3 iso b (prev : option row) (l : list row) :
  em_key3 <$> walk_log iso b prev l = (λ r, (iso, year r, b)) <$> l.
Proof.
  revert prev. induction l as [|r l IH]; intros prev; [done|].
  simpl. by rewrite IH.
Qed.

(** The log has one entry per row, under the row's own triple. *)
Lemma delta_log_key3_perm (rows : list row) :
  em_key3 <$> delta_log rows ≡ₚ key3 <$> rows.
Proof.
  unfold delta_log. rewrite fmap_bind_comm.
  rewrite <- (group_bind_perm iso3 key3 rows).
  apply bind_perm_in. intros [iso rs] Hg. simpl.
  rewrite fmap_bind_comm.
  rewrite <- (group_bind_perm buffer_km key3 rs).
  apply bind_perm_in. intros [b rs'] Hh. simpl.
  rewrite walk_log_key3.
  transitivity (key3 <$> js_sort by_year_ascending rs');
    [|by rewrite js_sort_perm].
  erewrite list_fmap_ext; [done|].
  intros i r Hr%list_elem_of_lookup_2%js_sort_elem_of.
  destruct (group_member buffer_km rs b rs' r Hh Hr) as [Hb Hr'].
  destruct (group_member iso3 rows iso rs r Hg Hr') as [Hi _].
  unfold key3. by rewrite Hb, Hi.
Qed.

Lemma key_of_triple_inj (t1 t2 : string * Z * Z) :
  key_of_triple t1 = key_of_triple t2 → t1 = t2.
Proof.
  destruct t1 as [[i1 y1] b1], t2 as [[i2 y2] b2]. unfold key_of_triple.
  simpl. by intros (-> & -> & ->)%keyExposure_inj.
Qed.

Lemma em_set_keys (log : list emitted) :
  (em_set <$> log).*1 = key_of_triple <$> (em_key3 <$> log).
Proof. rewrite <- !list_fmap_compose. by apply list_fmap_ext. Qed.

Lemma delta_log_lookup (rows : list row) (e : emitted) :
  NoDup (key3 <$> rows) → e ∈ delta_log rows →
  deltaExposureByKey (build_deltas rows)
    !! keyExposure (em_iso e) (em_year e) (em_buffer e)
  = Some (em_delta e).
Proof.
  intros Hnd He. rewrite build_deltas_log, record_delta_map.
  apply set_all_lookup_nodup.
  - rewrite em_set_keys. apply NoDup_fmap_2_strong.
    + intros ?? _ _. apply key_of_triple_inj.
    + by rewrite delta_log_key3_perm.
  - apply list_elem_of_fmap. by exists e.
Qed.

Lemma delta_log_lookup_inv (rows : list row) iso y b (v : option Z) :
  deltaExposureByKey (build_deltas rows) !! keyExposure iso y b = Some v →
  ∃ e, e ∈ delta_log rows ∧ em_key3 e = (iso, y, b) ∧ em_delta e = v.
Proof.
  rewrite build_deltas_log, record_delta_map.
  intros [Hin|?]%set_all_lookup_inv; [|by simplify_map_eq].
  apply list_elem_of_fmap in Hin as (e & [= Hk ->] & He).
  apply keyExposure_inj in Hk as (-> & -> & ->). by exists e.
Qed.

Lemma deltaAt_Some (raw : list row) iso y b (z : Z) :
  deltaAt (loadData raw) iso y b = Some z ↔
  deltaExposureByKey (build_deltas (countryRows (loadData raw)))
    !! keyExposure iso y b = Some (Some z).
Proof.
  unfold deltaAt. simpl.
  destruct (deltaExposureByKey _ !! _) as [[z'|]|]; simpl;
    (split; intros E; by try injection E as ->).
Qed.

(** C4: with unique (entity, year, buffer) triples, the bound used for a
    buffer is the largest delta of that buffer over all entities and
    years (no delta exceeds it and one attains it) when some delta is
    strictly positive, and 1 when none is. *)
Theorem C4_max_positive_delta (raw : list row) (b : Z) :
  NoDup (key3 <$> countryRows (loadData raw)) →
  let d := loadData raw in
  let M := maxDeltaPeople d b in
  (∀ iso y z, deltaAt d iso y b = Some z → (z ≤ M)%Z)
  ∧ ((∃ iso y z, deltaAt d iso y b = Some z ∧ (0 < z)%Z) →
     ∃ iso y, deltaAt d iso y b = Some M)
  ∧ ((∀ iso y z, deltaAt d iso y b = Some z → (z ≤ 0)%Z) → M = 1%Z).
Proof.
  intros Hnd d M.
  pose proof (max_inv_log (delta_log (countryRows d)) b) as Hinv.
  rewrite <- build_deltas_log in Hinv.
  assert (∀ iso y z, deltaAt d iso y b = Some z →
            ∃ e, e ∈ delta_log (countryRows d) ∧ em_buffer e = b
                 ∧ em_delta e = Some z) as Hlog.
  { intros iso y z (e & He & [= _ _ Hb] & Hd)%deltaAt_Some%delta_log_lookup_inv.
    eauto. }
  assert (∀ e z, e ∈ delta_log (countryRows d) → em_buffer e = b →
            em_delta e = Some z →
            deltaAt d (em_iso e) (em_year e) b = Some z) as Hmap.
  { intros e z He <- Hz. apply deltaAt_Some. rewrite <- Hz.
    by apply delta_log_lookup. }
  unfold M, maxDeltaPeople.
  change (maxDeltaByBuffer (deltaIndex d))
    with (maxDeltaByBuffer (build_deltas (countryRows d))).
  destruct (maxDeltaByBuffer _ !! b) as [v|].
  - destruct Hinv as (Hv & (e & He & Hb & Hd) & Hmax).
    destruct (Z.eqb_spec v 0) as [?|_]; [lia|]. split_and!.
    + intros iso y z (e' & ? & ? & ?)%Hlog. by eapply Hmax.
    + intros _. exists (em_iso e), (em_year e). by apply Hmap.
    + intros Hnone. specialize (Hnone _ _ _ (Hmap e v He Hb Hd)). lia.
  - split_and!; [| |done].
    + intros iso y z (e' & Hin & Hb & Hd)%Hlog.
      specialize (Hinv e' z Hin Hb Hd). lia.
    + intros (iso & y & z & (e' & Hin & Hb & Hd)%Hlog & Hz).
      specialize (Hinv e' z Hin Hb Hd). lia.
Qed.

(** ** What the walk stores for a row *)

Lemma ascending_gt (a b : Z) : (0 < ascending a b)%Z ↔ (b < a)%Z.
Proof.
  unfold ascending.
  destruct (Z.ltb_spec a b), (Z.ltb_spec b a); lia.
Qed.

Lemma by_year_not_after (x y : row) :
  not_after by_year_ascending x y ↔ (year x ≤ year y)%Z.
Proof. unfold not_after, by_year_ascending. rewrite ascending_gt. lia. Qed.

Lemma by_year_sorted (l : list row) :
  StronglySorted (not_after by_year_ascending) (js_sort by_year_ascending l).
Proof.
  apply (js_sort_sorted by_year_ascending (λ _, True)).
  - intros x y _ _. rewrite by_year_not_after.
    unfold by_year_ascending. rewrite ascending_gt. lia.
  - intros x y z _ _ _. rewrite !by_year_not_after. lia.
  - by apply Forall_forall.
Qed.

Lemma decade_delta_nonneg (p r : row) (z : Z) :
  decade_delta p r = Some z → (0 ≤ z)%Z.
Proof.
  unfold decade_delta.
  destruct (finite_or_null _) as [d|]; [|done].
  destruct (Z.ltb_spec d 0); intros [= <-]; lia.
Qed.

Lemma decade_delta_finite (p r : row) (a c : Z) :
  pop_near r = Some (Fin a) → pop_near p = Some (Fin c) →
  decade_delta p r = Some (Z.max 0 (a - c)).
Proof.
  unfold decade_delta. intros -> ->. simpl.
  destruct (Z.ltb_spec (a - c) 0); f_equal; lia.
Qed.

(** A [null] population is read as 0 by the subtraction. *)
Lemma decade_delta_null_prev (p r : row) (a : Z) :
  pop_near r = Some (Fin a) → pop_near p = None →
  decade_delta p r = Some (Z.max 0 a).
Proof.
  unfold decade_delta. intros -> ->. simpl. rewrite Z.sub_0_r.
  destruct (Z.ltb_spec a 0); f_equal; lia.
Qed.

Lemma decade_delta_not_finite (p r : row) :
  isFinite (num_sub (to_number (pop_near r)) (to_number (pop_near p))) = false →
  decade_delta p r = None.
Proof.
  unfold decade_delta.
  by destruct (num_sub (to_number (pop_near r)) (to_number (pop_near p))).
Qed.

Lemma walk_log_values iso b (prev : option row) (l : list row) (e : emitted) :
  e ∈ walk_log iso b prev l →
  em_delta e = None ∨ ∃ p r, em_delta e = decade_delta p r.
Proof.
  revert prev. induction l as [|r l IH]; intros prev; simpl.
  { by intros ?%elem_of_nil. }
  intros [->|He]%elem_of_cons; [|by eapply IH].
  destruct prev as [p|]; simpl; eauto.
Qed.

Lemma walk_log_next iso b (prev : option row) (l1 l2 : list row) (p r : row) :
  Emit iso (year r) b (decade_delta p r)
  ∈ walk_log iso b prev (l1 ++ p :: r :: l2).
Proof.
  revert prev. induction l1 as [|x l1 IH]; intros prev; simpl.
  - right. by left.
  - right. apply IH.
Qed.

Section one_group.
Context (grp : list row) (iso : string) (b : Z).
Hypothesis years_NoDup : NoDup (year <$> grp).

Lemma sorted_years_NoDup : NoDup (year <$> js_sort by_year_ascending grp).
Proof. by rewrite js_sort_perm. Qed.

(** The row of the earliest year of a group gets "no value". *)
Lemma walk_first (r : row) :
  r ∈ grp → (∀ q, q ∈ grp → (year r ≤ year q)%Z) →
  Emit iso (year r) b None
  ∈ walk_log iso b None (js_sort by_year_ascending grp).
Proof.
  intros Hr Hmin.
  pose proof (by_year_sorted grp) as Hs.
  pose proof sorted_years_NoDup as Hnd.
  apply (js_sort_elem_of by_year_ascending) in Hr.
  assert (∀ q, q ∈ js_sort by_year_ascending grp → (year r ≤ year q)%Z) as Hmin'.
  { intros q ?%js_sort_elem_of. by apply Hmin. }
  destruct (js_sort by_year_ascending grp) as [|x l]; [by apply elem_of_nil in Hr|].
  apply StronglySorted_cons in Hs as [Hx _].
  rewrite fmap_cons in Hnd. apply NoDup_cons in Hnd as [Hx' _].
  apply elem_of_cons in Hr as [->|Hr]; [by left|].
  destruct Hx'. rewrite Forall_forall in Hx.
  specialize (Hx r Hr). apply by_year_not_after in Hx.
  assert (year x = year r) as ->.
  { specialize (Hmin' x ltac:(by left)). lia. }
  apply list_elem_of_fmap. eauto.
Qed.

(** A later row gets the delta against the row that precedes it in year
    order. *)
Lemma walk_next (p r : row) :
  p ∈ grp → r ∈ grp → (year p < year r)%Z →
  (∀ q, q ∈ grp → (year q ≤ year p)%Z ∨ (year r ≤ year q)%Z) →
  Emit iso (year r) b (decade_delta p r)
  ∈ walk_log iso b None (js_sort by_year_ascending grp).
Proof.
  intros Hp Hr Hpr Hbetween.
  pose proof (by_year_sorted grp) as Hs.
  pose proof sorted_years_NoDup as Hnd.
  apply (js_sort_elem_of by_year_ascending) in Hp, Hr.
  assert (∀ q, q ∈ js_sort by_year_ascending grp →
               (year q ≤ year p)%Z ∨ (year r ≤ year q)%Z) as Hbetween'.
  { intros q ?%js_sort_elem_of. by apply Hbetween. }
  destruct (list_elem_of_split _ _ Hr) as (l1 & l2 & Hl).
  rewrite Hl in Hs, Hnd, Hp, Hbetween' |- *. clear Hl Hr.
  assert (p ∉ r :: l2) as Hp2.
  { intros [->|Hin]%elem_of_cons; [lia|].
    apply StronglySorted_app in Hs as (_ & _ & [Hr _]%StronglySorted_cons).
    rewrite Forall_forall in Hr. specialize (Hr p Hin).
    apply by_year_not_after in Hr. lia. }
  apply elem_of_app in Hp as [Hp|?]; [|done].
  destruct l1 as [|q l1 _] using rev_ind; [by apply elem_of_nil in Hp|].
  rewrite <- app_assoc in Hs, Hnd, Hbetween' |- *. simpl in *.
  assert (q = p) as ->; [|apply walk_log_next].
  assert (year q < year r)%Z as Hqr.
  { apply StronglySorted_app in Hs as (_ & _ & [Hq _]%StronglySorted_cons).
    apply Forall_cons in Hq as [Hq%by_year_not_after _].
    rewrite fmap_app, !fmap_cons in Hnd.
    apply NoDup_app in Hnd as (_ & _ & [Hq' _]%NoDup_cons).
    apply not_elem_of_cons in Hq' as [? _]. by apply Z.le_neq. }
  assert (q ∈ l1 ++ q :: r :: l2) as Hq_in.
  { apply elem_of_app. right. by left. }
  destruct (Hbetween' q Hq_in) as [Hqp|?]; [|lia].
  apply elem_of_app in Hp as [Hp|Hp%list_elem_of_singleton]; [|done].
  exfalso.
  pose proof Hs as (Hcross & _ & _)%StronglySorted_app.
  specialize (Hcross p q Hp ltac:(by left)).
  apply by_year_not_after in Hcross.
  rewrite fmap_app, !fmap_cons in Hnd.
  apply NoDup_app in Hnd as (_ & Hdisj & _).
  apply (Hdisj (year p)); [apply list_elem_of_fmap; eauto|].
  assert (year p = year q) as -> by lia. by left.
Qed.
End one_group.

Lemma row_group_elem (rows : list row) iso b (d : row) :
  d ∈ row_group rows iso b ↔ d ∈ rows ∧ iso3 d = iso ∧ buffer_km d = b.
Proof. unfold row_group. rewrite !list_elem_of_filter. tauto. Qed.

Lemma group_elem_of {K} `{EqDecision K} (key : row → K) (l : list row) (d : row) :
  d ∈ l → (key d, filter (λ d', key d' = key d) l) ∈ group key l.
Proof.
  intros Hd. unfold group. apply list_elem_of_fmap. exists (key d).
  split; [done|]. apply group_keys_elem. eauto.
Qed.

Lemma row_group_log (rows : list row) (r : row) (e : emitted) :
  r ∈ rows →
  e ∈ walk_log (iso3 r) (buffer_km r) None
        (js_sort by_year_ascending (row_group rows (iso3 r) (buffer_km r))) →
  e ∈ delta_log rows.
Proof.
  intros Hr He. unfold delta_log. apply list_elem_of_bind.
  exists (iso3 r, filter (λ d, iso3 d = iso3 r) rows).
  split; [|by apply group_elem_of]. simpl.
  apply list_elem_of_bind.
  exists (buffer_km r,
          filter (λ d, buffer_km d = buffer_km r)
                 (filter (λ d, iso3 d = iso3 r) rows)).
  split; [done|]. apply (group_elem_of buffer_km).
  by apply list_elem_of_filter.
Qed.

Lemma row_group_years_NoDup (rows : list row) iso b :
  NoDup (key3 <$> rows) → NoDup (year <$> row_group rows iso b).
Proof.
  intros Hnd.
  assert (NoDup (key3 <$> row_group rows iso b)) as Hsub.
  { eapply sublist_NoDup; [done|]. apply fmap_sublist.
    unfold row_group. etrans; apply sublist_filter. }
  apply (NoDup_fmap_1 (λ y : Z, (iso, y, b))).
  rewrite <- list_fmap_compose.
  erewrite list_fmap_ext; [exact Hsub|].
  intros i d (_ & Hi & Hb)%list_elem_of_lookup_2%row_group_elem.
  unfold key3. simpl. by rewrite Hi, Hb.
Qed.

Section stored_delta.
Context (raw : list row).
Local Abbreviation rows := (countryRows (loadData raw)).
Local Abbreviation dmap := (deltaExposureByKey (deltaIndex (loadData raw))).
Hypothesis key_unique : NoDup (key3 <$> rows).

(** The earliest record of an (entity, buffer) pair is stored with "no
    value". *)
Lemma stored_delta_first (r : row) :
  r ∈ rows →
  (∀ q, q ∈ rows → iso3 q = iso3 r → buffer_km q = buffer_km r →
        (year r ≤ year q)%Z) →
  dmap !! keyExposure (iso3 r) (year r) (buffer_km r) = Some None.
Proof.
  intros Hr Hmin.
  apply (delta_log_lookup rows (Emit (iso3 r) (year r) (buffer_km r) None));
    [done|].
  apply (row_group_log rows r); [done|]. apply walk_first.
  - by apply row_group_years_NoDup.
  - by apply row_group_elem.
  - intros q (? & ? & ?)%row_group_elem. by apply Hmin.
Qed.

(** Every other record is stored with the delta against the record that
    precedes it in year order within the pair, whatever its year. *)
Lemma stored_delta_next (p r : row) :
  p ∈ rows → r ∈ rows →
  iso3 p = iso3 r → buffer_km p = buffer_km r → (year p < year r)%Z →
  (∀ q, q ∈ rows → iso3 q = iso3 r → buffer_km q = buffer_km r →
        (year q ≤ year p)%Z ∨ (year r ≤ year q)%Z) →
  dmap !! keyExposure (iso3 r) (year r) (buffer_km r)
  = Some (decade_delta p r).
Proof.
  intros Hp Hr Hi Hb Hpr Hbetween.
  apply (delta_log_lookup rows
           (Emit (iso3 r) (year r) (buffer_km r) (decade_delta p r))); [done|].
  apply (row_group_log rows r); [done|]. apply walk_next.
  - by apply row_group_years_NoDup.
  - by apply row_group_elem.
  - by apply row_group_elem.
  - done.
  - intros q (? & ? & ?)%row_group_elem. by apply Hbetween.
Qed.
End stored_delta.

(** A triple that no row carries has no entry. *)
Lemma stored_delta_absent (raw : list row) iso y b :
  (∀ q, q ∈ countryRows (loadData raw) → key3 q ≠ (iso, y, b)) →
  deltaExposureByKey (deltaIndex (loadData raw)) !! keyExposure iso y b = None.
Proof.
  intros Habs.
  destruct (deltaExposureByKey _ !! _) as [v|] eqn:Hv; [|done].
  apply delta_log_lookup_inv in Hv as (e & He & Hk & _).
  assert (em_key3 e ∈ key3 <$> countryRows (loadData raw)) as Hin.
  { rewrite <- delta_log_key3_perm. apply list_elem_of_fmap. eauto. }
  apply list_elem_of_fmap in Hin as (q & Hq & Hin).
  destruct (Habs q Hin). congruence.
Qed.

(** No stored delta is negative. *)
Lemma stored_delta_nonneg (raw : list row) iso y b (z : Z) :
  deltaAt (loadData raw) iso y b = Some z → (0 ≤ z)%Z.
Proof.
  intros (e & He & _ & Hd)%deltaAt_Some%delta_log_lookup_inv.
  unfold delta_log in He.
  apply list_elem_of_bind in He as (g & He & _).
  apply list_elem_of_bind in He as (h & He & _).
  apply walk_log_values in He as [He|(p & r & He)]; [congruence|].
  rewrite He in Hd. by eapply decade_delta_nonneg.
Qed.

(** On complete data the walk's "previous record" is the previous year:
    with unique triples and every year in the fixed sequence, the
    earliest year carries "no value", and a year whose record and whose
    previous year's record both hold a population carries
    [max(0, now - previous)]. *)
Lemma stored_delta_fixed_years (raw : list row) iso b :
  NoDup (key3 <$> countryRows (loadData raw)) →
  Forall (λ d, year d ∈ years) (countryRows (loadData raw)) →
  deltaAt (loadData raw) iso 1990 b = None
  ∧ (∀ y p r a c,
       y ∈ [2000; 2010]%Z →
       p ∈ countryRows (loadData raw) → r ∈ countryRows (loadData raw) →
       key3 p = (iso, (y - 10)%Z, b) → key3 r = (iso, y, b) →
       pop_near r = Some (Fin a) → pop_near p = Some (Fin c) →
       deltaAt (loadData raw) iso y b = Some (Z.max 0 (a - c)))
  ∧ ((∀ q, q ∈ countryRows (loadData raw) → key3 q ≠ (iso, 1990%Z, b)) →
     deltaAt (loadData raw) iso 2000 b = None).
Proof.
  intros Hnd Hyears. rewrite Forall_forall in Hyears.
  assert (∀ q, q ∈ countryRows (loadData raw) →
            year q = 1990 ∨ year q = 2000 ∨ year q = 2010)%Z as Hy.
  { intros q Hq%Hyears. unfold years in Hq.
    rewrite !elem_of_cons, elem_of_nil in Hq. tauto. }
  split_and!.
  - unfold deltaAt.
    destruct (decide ((iso, 1990%Z, b) ∈ key3 <$> countryRows (loadData raw)))
      as [(r & [= -> Hr ->] & Hin)%list_elem_of_fmap|Habs].
    + rewrite Hr, (stored_delta_first raw Hnd r Hin); [done|].
      intros q Hq _ _. destruct (Hy q Hq) as [?|[?|?]]; lia.
    + rewrite stored_delta_absent; [done|].
      intros q Hq Hk. apply Habs, list_elem_of_fmap. eauto.
  - intros y p r a c Hy' Hp Hr [= Hpi Hpy Hpb] [= <- <- <-] Hra Hpc.
    unfold deltaAt.
    rewrite (stored_delta_next raw Hnd p r Hp Hr Hpi Hpb).
    + simpl. by apply decade_delta_finite.
    + lia.
    + intros q Hq _ _. rewrite !elem_of_cons, elem_of_nil in Hy'.
      destruct (Hy q Hq) as [?|[?|?]]; lia.
  - intros Habs. unfold deltaAt.
    destruct (decide ((iso, 2000%Z, b) ∈ key3 <$> countryRows (loadData raw)))
      as [(r & [= -> Hr ->] & Hin)%list_elem_of_fmap|Habs'].
    + rewrite Hr, (stored_delta_first raw Hnd r Hin); [done|].
      intros q Hq Hqi Hqb. destruct (Hy q Hq) as [Hq0|[?|?]]; [|lia..].
      destruct (Habs q Hq). unfold key3. by rewrite Hqi, Hqb, Hq0.
    + rewrite stored_delta_absent; [done|].
      intros q Hq Hk. apply Habs', list_elem_of_fmap. eauto.
Qed.

(** C1, where the code departs from it: the walk compares a record with
    the previous record of the pair, not with the previous year.  FRA
    has no record for 2000 at 30 km, yet its 2010 delta is not "no
    value": it is the increase since 1990. *)
Theorem C1_gap_year_delta :
  (∀ q, q ∈ countryRows (loadData gap_rows) → key3 q ≠ ("FRA", 2000%Z, 30%Z))
  ∧ exposureByKey (loadData gap_rows) !! keyExposure "FRA" 2000 30 = None
  ∧ deltaAt (loadData gap_rows) "FRA" 1990 30 = None
  ∧ deltaAt (loadData gap_rows) "FRA" 2010 30 = Some 2000000%Z.
Proof.
  split_and!; [|by vm_compute..].
  assert (countryRows (loadData gap_rows) = gap_rows) as -> by by vm_compute.
  intros q Hq. unfold gap_rows in Hq.
  rewrite !elem_of_cons, elem_of_nil in Hq.
  by destruct Hq as [->|[->|[]]].
Qed.

(** ** A small table *)

Lemma demo_rows_loaded :
  countryRows (loadData demo_rows) = take 6 demo_rows.
Proof. by vm_compute. Qed.

Lemma demo_rows_unique : NoDup (key3 <$> countryRows (loadData demo_rows)).
Proof. apply (bool_decide_unpack _). by vm_compute. Qed.

Lemma C2_rank_index_witness :
  ∃ rankMap : gmap string nat,
    rankByYearBuffer (loadData demo_rows) !! keyYearBuffer 2010 30
    = Some rankMap
    ∧ size rankMap = 2%nat.
Proof.
  destruct (C2_rank_index demo_rows 2010 30) as (m & Hm & Hsize & _).
  - unfold years. set_solver.
  - unfold buffers. set_solver.
  - apply (bool_decide_unpack _). by vm_compute.
  - exists m. split; [exact Hm|exact Hsize].
Defined.

Lemma C3_point_index_witness :
  exposureByKey (loadData demo_rows) !! keyExposure "USA" 2010 30
  = Some (Row "USA" "United States" 2010 30 (Some (18 # 1)%Q)
              (Some (Fin 4000000)) (Some 9%Z)).
Proof.
  refine (proj1 (C3_point_index demo_rows
    (Row "USA" "United States" 2010 30 (Some (18 # 1)%Q)
         (Some (Fin 4000000)) (Some 9%Z)) _ _)).
  - rewrite demo_rows_loaded. simpl. set_solver.
  - rewrite demo_rows_loaded. simpl. intros r' Hr' Hk.
    rewrite !elem_of_cons, elem_of_nil in Hr'.
    destruct Hr' as [->|[->|[->|[->|[->|[->|[]]]]]]]; by try discriminate Hk.
Defined.

Lemma C4_max_positive_delta_witness :
  ∃ iso y,
    deltaAt (loadData demo_rows) iso y 30
    = Some (maxDeltaPeople (loadData demo_rows) 30).
Proof.
  refine (proj1 (proj2 (C4_max_positive_delta demo_rows 30 demo_rows_unique)) _).
  exists "FRA", 2010%Z, 1000000%Z. split; [by vm_compute|lia].
Defined.

Lemma C9_rank_absent_and_guard_witness :
  rankOf (loadData demo_rows) "DEU" 2010 30 = None.
Proof.
  refine (proj1 (C9_rank_absent_and_guard demo_rows "DEU" 2010 30 _)).
  rewrite demo_rows_loaded. simpl. intros r Hr Hiso.
  rewrite !elem_of_cons, elem_of_nil in Hr.
  destruct Hr as [->|[->|[->|[->|[->|[->|[]]]]]]]; by try discriminate Hiso.
Defined.


(** * Further properties of the indices *)

(** X1: the two composite keys never collide, whatever characters the
    entity code holds: equal keys come from equal components. *)
Theorem X1_keys_never_collide (i1 i2 : string) (y1 b1 y2 b2 : Z) :
  (keyExposure i1 y1 b1 = keyExposure i2 y2 b2 ↔ (i1, y1, b1) = (i2, y2, b2))
  ∧ (keyYearBuffer y1 b1 = keyYearBuffer y2 b2 ↔ (y1, b1) = (y2, b2)).
Proof.
  split; (split; [|by intros [= -> -> ->] || by intros [= -> ->]]).
  - by intros (-> & -> & ->)%keyExposure_inj.
  - by intros [-> ->]%keyYearBuffer_inj.
Qed.

Lemma set_all_app `{Countable K} {V} (m : gmap K V) (l1 l2 : list (K * V)) :
  set_all m (l1 ++ l2) = set_all (set_all m l1) l2.
Proof. unfold set_all. by rewrite foldl_app. Qed.

Lemma set_all_lookup_last `{Countable K} {V} (m : gmap K V)
    (l1 l2 : list (K * V)) (k : K) (v : V) :
  k ∉ l2.*1 → set_all m (l1 ++ (k, v) :: l2) !! k = Some v.
Proof.
  intros Hk. rewrite set_all_app. simpl.
  change (set_all (set_all m l1) ((k, v) :: l2))
    with (set_all (<[k:=v]> (set_all m l1)) l2).
  by rewrite set_all_lookup_notin, lookup_insert_eq.
Qed.

Lemma set_all_lookup_is_Some `{Countable K} {V} (m : gmap K V)
    (l : list (K * V)) (k : K) :
  k ∈ l.*1 → is_Some (set_all m l !! k).
Proof.
  induction l as [|[k' v'] l IH] using rev_ind; [by intros ?%elem_of_nil|].
  rewrite fmap_app, set_all_snoc, elem_of_app. simpl.
  destruct (decide (k' = k)) as [->|Hne].
  - intros _. rewrite lookup_insert_eq. eauto.
  - rewrite lookup_insert_ne by done. intros [?|Hin]; [by apply IH|].
    apply list_elem_of_singleton in Hin. congruence.
Qed.

Lemma exposure_keys (rows : list row) :
  ((λ d, (keyExposure (iso3 d) (year d) (buffer_km d), d)) <$> rows).*1
  = key_of_triple <$> (key3 <$> rows).
Proof. rewrite <- !list_fmap_compose. by apply list_fmap_ext. Qed.

(** X2: a read of the point index misses exactly when no filtered row
    carries the triple; a hit is a filtered row that carries it; of
    several rows with one triple the last is the one kept. *)
Theorem X2_point_index_reads (raw : list row) (iso : string) (y b : Z) :
  let d := loadData raw in
  (exposureByKey d !! keyExposure iso y b = None ↔
   ∀ r, r ∈ countryRows d → key3 r ≠ (iso, y, b))
  ∧ (∀ r, exposureByKey d !! keyExposure iso y b = Some r →
          r ∈ raw ∧ buffer_km r ∈ buffers ∧ key3 r = (iso, y, b))
  ∧ (∀ l1 r l2,
       countryRows d = l1 ++ r :: l2 → key3 r = (iso, y, b) →
       (∀ q, q ∈ l2 → key3 q ≠ (iso, y, b)) →
       exposureByKey d !! keyExposure iso y b = Some r).
Proof.
  intros d.
  change (exposureByKey d) with (build_exposureByKey (countryRows d)).
  assert (∀ r, build_exposureByKey (countryRows d) !! keyExposure iso y b
               = Some r → r ∈ countryRows d ∧ key3 r = (iso, y, b)) as Hhit.
  { intros r [Hr Hk]%build_exposureByKey_inv. split; [done|].
    apply keyExposure_inj in Hk as (-> & -> & ->). done. }
  split_and!.
  - split.
    + intros Hnone r Hr Hk.
      destruct (set_all_lookup_is_Some (∅ : gmap string row)
        ((λ d, (keyExposure (iso3 d) (year d) (buffer_km d), d))
           <$> countryRows d) (keyExposure iso y b)) as [r' Hr'].
      * rewrite exposure_keys. apply list_elem_of_fmap.
        exists (iso, y, b). split; [done|].
        apply list_elem_of_fmap. eauto.
      * unfold build_exposureByKey in Hnone. congruence.
    + intros Hall.
      destruct (build_exposureByKey (countryRows d) !! keyExposure iso y b)
        as [r|] eqn:Hr; [|done].
      destruct (Hhit r eq_refl) as [Hin Hk]. by destruct (Hall r Hin).
  - intros r [[Hb Hr]%keep_buffers_elem Hk]%Hhit. done.
  - intros l1 r l2 Hrows [= <- <- <-] Hlast.
    unfold build_exposureByKey. rewrite Hrows, fmap_app, fmap_cons.
    apply set_all_lookup_last. rewrite exposure_keys.
    intros (t & Ht & (q & -> & Hq)%list_elem_of_fmap)%list_elem_of_fmap.
    apply (key_of_triple_inj (iso3 r, year r, buffer_km r)) in Ht.
    by destruct (Hlast q Hq).
Qed.

Lemma rank_entries_keys (rows : list row) :
  (rank_entries rows).*1
  = (y ← years; b ← buffers; [keyYearBuffer y b]).
Proof. reflexivity. Qed.

(** X3: the rank index has one entry for each of the nine pairs of the
    year × buffer cross product and nothing else; a rank query at any
    other pair finds no map, no rank and no denominator. *)
Theorem X3_rank_index_pairs (raw : list row) (k iso : string) (y b : Z) :
  let d := loadData raw in
  (is_Some (rankByYearBuffer d !! k) ↔
   ∃ y' b', y' ∈ years ∧ b' ∈ buffers ∧ k = keyYearBuffer y' b')
  ∧ size (rankByYearBuffer d) = 9%nat
  ∧ (¬ (y ∈ years ∧ b ∈ buffers) →
     rankOf d iso y b = None ∧ denomOf d y b = None).
Proof.
  intros d.
  change (rankByYearBuffer d)
    with (build_rankByYearBuffer (countryRows d)).
  assert (∀ k', is_Some (build_rankByYearBuffer (countryRows d) !! k') ↔
            ∃ y' b', y' ∈ years ∧ b' ∈ buffers ∧ k' = keyYearBuffer y' b')
    as Hkeys.
  { intros k'. split.
    - intros [m Hm]. rewrite build_rankByYearBuffer_entries in Hm.
      apply set_all_lookup_inv in Hm as [Hin|?]; [|by simplify_map_eq].
      apply rank_entries_elem in Hin as (y' & b' & ? & ? & ? & _). eauto.
    - intros (y' & b' & Hy & Hb & ->).
      rewrite rankByYearBuffer_lookup by done. eauto. }
  split_and!; [apply Hkeys| |].
  - rewrite build_rankByYearBuffer_entries, set_all_size.
    + done.
    + rewrite rank_entries_keys. apply (bool_decide_unpack _). by vm_compute.
  - intros Hout. unfold rankOf, denomOf.
    change (rankByYearBuffer d)
      with (build_rankByYearBuffer (countryRows d)).
    destruct (build_rankByYearBuffer _ !! keyYearBuffer y b) as [m|] eqn:Hm;
      [|done].
    destruct Hout.
    destruct (proj1 (Hkeys _) (mk_is_Some _ _ Hm))
      as (y' & b' & ? & ? & [-> ->]%keyYearBuffer_inj). done.
Qed.

Lemma Zpos_of_nat_S (n : nat) : Z.pos (Pos.of_nat (S n)) = Z.of_nat (S n).
Proof. rewrite <- Pos.of_nat_succ, Zpos_P_of_succ_nat. lia. Qed.

(** X4: with unique (entity, year, buffer) triples, an entity that has a
    rank at a pair has it between 1 and the denominator read for the
    pair; so the guard [rank && denom] passes whenever a rank exists, and
    the sentence "rank r of d" never shows r above d. *)
Theorem X4_rank_within_denominator (raw : list row) (iso : string) (y b : Z)
    (rank : nat) :
  NoDup (key3 <$> countryRows (loadData raw)) →
  rankOf (loadData raw) iso y b = Some rank →
  ∃ denom,
    denomOf (loadData raw) y b = Some denom
    ∧ (1 ≤ rank ≤ denom)%nat
    ∧ is_Some (pctRank (Some rank) (Some denom)).
Proof.
  intros Hnd Hrank. unfold rankOf, denomOf in *.
  change (rankByYearBuffer (loadData raw))
    with (build_rankByYearBuffer (countryRows (loadData raw))) in *.
  destruct (build_rankByYearBuffer _ !! _) as [m|] eqn:Hm; [|done].
  apply rankByYearBuffer_inv in Hm as (_ & _ & ->).
  unfold ranks_at in *.
  assert (NoDup (iso3 <$> js_sort by_pct_descending
            (rank_subset (countryRows (loadData raw)) y b))) as Hiso.
  { rewrite js_sort_perm. by apply rank_subset_NoDup. }
  apply rank_map_lookup in Hrank as (i & d' & Hi%lookup_lt_Some & _ & ->);
    [|done].
  eexists. split; [done|]. rewrite rank_map_size by done.
  assert (1 ≤ S i ≤ length (js_sort by_pct_descending
            (rank_subset (countryRows (loadData raw)) y b)))%nat as Hle by lia.
  split; [done|].
  destruct (length _) as [|n]; [lia|]. unfold pctRank. simpl. eauto.
Qed.

Lemma X4_rank_within_denominator_witness :
  ∃ denom,
    denomOf (loadData demo_rows) 2010 30 = Some denom
    ∧ (1 ≤ 2 ≤ denom)%nat
    ∧ is_Some (pctRank (Some 2%nat) (Some denom)).
Proof.
  apply (X4_rank_within_denominator demo_rows "USA" 2010 30 2).
  - exact demo_rows_unique.
  - by vm_compute.
Defined.

(** X5: the delta index and the point index hold the same keys: every
    stored record has one delta entry, under the key of the record. *)
Theorem X5_delta_keys_are_point_keys (raw : list row) (k : string) :
  is_Some (deltaExposureByKey (deltaIndex (loadData raw)) !! k)
  ↔ is_Some (exposureByKey (loadData raw) !! k).
Proof.
  set (rows := countryRows (loadData raw)).
  change (exposureByKey (loadData raw)) with (build_exposureByKey rows).
  change (deltaIndex (loadData raw)) with (build_deltas rows).
  assert (is_Some (build_exposureByKey rows !! k)
          ↔ k ∈ key_of_triple <$> (key3 <$> rows)) as ->.
  { unfold build_exposureByKey. rewrite <- exposure_keys. split.
    - intros [r [Hin|?]%set_all_lookup_inv]; [|by simplify_map_eq].
      apply list_elem_of_fmap. by exists (k, r).
    - apply set_all_lookup_is_Some. }
  rewrite <- delta_log_key3_perm, <- em_set_keys.
  rewrite build_deltas_log, record_delta_map. split.
  - intros [v [Hin|?]%set_all_lookup_inv]; [|by simplify_map_eq].
    apply list_elem_of_fmap. by exists (k, v).
  - apply set_all_lookup_is_Some.
Qed.

(** X6: whatever the rows, a stored delta is never negative and never
    above the bound used for its buffer, and that bound is strictly
    positive: the colour scale's domain is never empty and no delta falls
    outside it. *)
Theorem X6_delta_within_bound (raw : list row) (iso : string) (y b z : Z) :
  (0 < maxDeltaPeople (loadData raw) b)%Z
  ∧ (deltaAt (loadData raw) iso y b = Some z →
     (0 ≤ z ≤ maxDeltaPeople (loadData raw) b)%Z).
Proof.
  pose proof (max_inv_log (delta_log (countryRows (loadData raw))) b) as Hinv.
  rewrite <- build_deltas_log in Hinv.
  unfold maxDeltaPeople.
  change (maxDeltaByBuffer (deltaIndex (loadData raw)))
    with (maxDeltaByBuffer (build_deltas (countryRows (loadData raw)))).
  destruct (maxDeltaByBuffer _ !! b) as [v|].
  - destruct Hinv as (Hv & _ & Hmax).
    destruct (Z.eqb_spec v 0) as [?|_]; [lia|]. split; [done|].
    intros Hz. split; [by eapply stored_delta_nonneg|].
    apply deltaAt_Some, delta_log_lookup_inv in Hz
      as (e & He & [= _ _ Hb] & Hd).
    by eapply Hmax.
  - split; [lia|]. intros Hz. split; [by eapply stored_delta_nonneg|].
    apply deltaAt_Some, delta_log_lookup_inv in Hz
      as (e & He & [= _ _ Hb] & Hd).
    specialize (Hinv e z He Hb Hd). lia.
Qed.

(** X7: with unique triples, the value stored for a record is "no value"
    when it is the earliest record of its (entity, buffer) pair, and
    otherwise the delta against the latest earlier record of the pair,
    however many years lie between the two. *)
Theorem X7_delta_against_previous_record (raw : list row) (r : row) :
  NoDup (key3 <$> countryRows (loadData raw)) →
  r ∈ countryRows (loadData raw) →
  ((∀ q, q ∈ countryRows (loadData raw) →
         iso3 q = iso3 r → buffer_km q = buffer_km r → (year r ≤ year q)%Z) →
   deltaAt (loadData raw) (iso3 r) (year r) (buffer_km r) = None)
  ∧ (∀ p, p ∈ countryRows (loadData raw) →
          iso3 p = iso3 r → buffer_km p = buffer_km r →
          (year p < year r)%Z →
          (∀ q, q ∈ countryRows (loadData raw) →
                iso3 q = iso3 r → buffer_km q = buffer_km r →
                (year q ≤ year p)%Z ∨ (year r ≤ year q)%Z) →
          deltaAt (loadData raw) (iso3 r) (year r) (buffer_km r)
          = decade_delta p r).
Proof.
  intros Hnd Hr. split.
  - intros Hmin. unfold deltaAt.
    by rewrite (stored_delta_first raw Hnd r Hr Hmin).
  - intros p Hp Hi Hb Hlt Hbetween. unfold deltaAt.
    by rewrite (stored_delta_next raw Hnd p r Hp Hr Hi Hb Hlt Hbetween).
Qed.

Lemma X7_delta_against_previous_record_witness :
  deltaAt (loadData demo_rows) "USA" 2000 30 = None.
Proof.
  refine (proj1 (X7_delta_against_previous_record demo_rows
    (Row "USA" "United States" 2000 30 (Some (5 # 2)%Q)
         (Some (Fin 5000000)) (Some 9%Z)) demo_rows_unique _) _).
  - rewrite demo_rows_loaded. simpl. set_solver.
  - rewrite demo_rows_loaded. simpl. intros q Hq Hiso _.
    rewrite !elem_of_cons, elem_of_nil in Hq.
    destruct Hq as [->|[->|[->|[->|[->|[->|[]]]]]]];
      first [discriminate Hiso|simpl; lia].
Defined.

(** X8: rows whose buffer is outside the fixed set reach no index: at
    such a buffer the point index, the delta index and the rank index
    answer "absent", the running maximum has no entry and the bound
    falls back to 1. *)
Theorem X8_other_buffers_are_dropped (raw : list row) (iso : string)
    (y b : Z) :
  b ∉ buffers →
  let d := loadData raw in
  exposureByKey d !! keyExposure iso y b = None
  ∧ deltaExposureByKey (deltaIndex d) !! keyExposure iso y b = None
  ∧ rankOf d iso y b = None
  ∧ maxDeltaByBuffer (deltaIndex d) !! b = None
  ∧ maxDeltaPeople d b = 1%Z.
Proof.
  intros Hb d.
  assert (∀ q, q ∈ countryRows d → buffer_km q ≠ b) as Hrows.
  { intros q [Hq _]%keep_buffers_elem Hqb. by rewrite Hqb in Hq. }
  assert (maxDeltaByBuffer (deltaIndex d) !! b = None) as Hmax.
  { pose proof (max_inv_log (delta_log (countryRows d)) b) as Hinv.
    rewrite <- build_deltas_log in Hinv.
    change (deltaIndex d) with (build_deltas (countryRows d)).
    destruct (maxDeltaByBuffer _ !! b) as [v|]; [|done].
    destruct Hinv as (_ & (e & He & Hbuf & _) & _).
    assert (em_key3 e ∈ key3 <$> countryRows d) as Hin.
    { rewrite <- delta_log_key3_perm. apply list_elem_of_fmap. eauto. }
    apply list_elem_of_fmap in Hin as (q & [= _ _ Hq] & Hin).
    destruct (Hrows q Hin). congruence. }
  split_and!; [| | |done|].
  - change (exposureByKey d) with (build_exposureByKey (countryRows d)).
    destruct (build_exposureByKey _ !! _) as [r|] eqn:Hr; [|done].
    apply build_exposureByKey_inv in Hr as [Hin Hk].
    apply keyExposure_inj in Hk as (_ & _ & ->). by destruct (Hrows r Hin).
  - apply stored_delta_absent. intros q Hq [= _ _ ?]. by destruct (Hrows q Hq).
  - unfold rankOf.
    change (rankByYearBuffer d)
      with (build_rankByYearBuffer (countryRows d)).
    destruct (build_rankByYearBuffer _ !! _) as [m|] eqn:Hm; [|done].
    by apply rankByYearBuffer_inv in Hm as (_ & ? & _).
  - unfold maxDeltaPeople. by rewrite Hmax.
Qed.

Lemma X8_other_buffers_are_dropped_witness :
  exposureByKey (loadData demo_rows) !! keyExposure "DEU" 2010 45 = None.
Proof.
  refine (proj1 (X8_other_buffers_are_dropped demo_rows "DEU" 2010 45 _)).
  unfold buffers. rewrite !elem_of_cons, elem_of_nil. lia.
Defined.

Lemma group_get_fmap (F : string → list row) (ks : list string) (k : string) :
  group_get k ((λ k', (k', F k')) <$> ks)
  = if decide (k ∈ ks) then Some (F k) else None.
Proof.
  induction ks as [|k' ks IH].
  { destruct (decide (k ∈ [])) as [Hin|_]; [by apply elem_of_nil in Hin|done]. }
  rewrite fmap_cons. cbn [group_get].
  destruct (decide (k' = k)) as [->|Hne].
  - destruct (decide (k ∈ k :: ks)) as [_|Hout]; [done|].
    destruct Hout. by left.
  - rewrite IH. destruct (decide (k ∈ ks)) as [Hin|Hout].
    + destruct (decide (k ∈ k' :: ks)) as [_|Hout]; [done|].
      destruct Hout. by right.
    + destruct (decide (k ∈ k' :: ks)) as [[?|?]%elem_of_cons|_]; [..|done];
        congruence.
Qed.

(** X9: the grouping index answers, for an entity, all its filtered rows
    in input order; the answer is never an empty group, and it is absent
    exactly when no filtered row carries the entity. *)
Theorem X9_group_index_reads (raw : list row) (iso : string) :
  let d := loadData raw in
  (group_get iso (exposuresByCountry d) = None ↔
   ∀ r, r ∈ countryRows d → iso3 r ≠ iso)
  ∧ (∀ rs, group_get iso (exposuresByCountry d) = Some rs →
           rs = filter (λ r, iso3 r = iso) (countryRows d)
           ∧ ∃ r rs', rs = r :: rs' ∧ iso3 r = iso).
Proof.
  intros d.
  change (exposuresByCountry d) with (group iso3 (countryRows d)).
  unfold group. rewrite group_get_fmap.
  destruct (decide (iso ∈ group_keys iso3 (countryRows d))) as [Hin|Hout].
  - apply group_keys_elem in Hin as (r & Hr & Hiso). split.
    + split; [done|]. intros Hall. by destruct (Hall r Hr).
    + intros rs [= <-]. split; [done|].
      assert (r ∈ filter (λ r, iso3 r = iso) (countryRows d)) as Hrf
        by by apply list_elem_of_filter.
      destruct (filter _ _) as [|r0 rs'] eqn:Hf; [by apply elem_of_nil in Hrf|].
      exists r0, rs'. split; [done|].
      assert (r0 ∈ filter (λ r, iso3 r = iso) (countryRows d)) as Hr0
        by (rewrite Hf; left).
      by apply list_elem_of_filter in Hr0 as [? _].
  - split; [|done]. split; [|done]. intros _ r Hr Hiso.
    apply Hout, group_keys_elem. eauto.
Qed.

(** * Further properties of the code resolution *)

Lemma upper_char_letter (a : ascii) :
  Geo.is_letter a = true → Geo.is_upper (Geo.upper_char a) = true.
Proof. destruct a as [[] [] [] [] [] [] [] []]; by vm_compute. Qed.

Lemma is_upper_facts (a : ascii) :
  Geo.is_upper a = true →
  Geo.upper_char a = a ∧ Geo.is_letter a = true ∧ Ascii.is_space a = false.
Proof. destruct a as [[] [] [] [] [] [] [] []]; by vm_compute. Qed.

Lemma toUpperCase_is_code (s : string) :
  Geo.three_letters s = true → is_code (Geo.toUpperCase s).
Proof.
  destruct s as [|a [|b [|c [|??]]]]; simpl; try done.
  intros [[Ha Hb]%andb_true_iff Hc]%andb_true_iff.
  auto using upper_char_letter.
Qed.

Lemma is_code_fixed (code : string) :
  is_code code →
  Geo.trim code = code ∧ Geo.three_letters code = true
  ∧ Geo.toUpperCase code = code.
Proof.
  destruct code as [|a [|b [|c [|??]]]]; simpl; try done.
  intros ((Ea & La & Sa)%is_upper_facts & (Eb & Lb & Sb)%is_upper_facts
          & (Ec & Lc & Sc)%is_upper_facts).
  split_and!.
  - unfold Geo.trim. simpl. rewrite Sa. simpl. by rewrite Sc.
  - by rewrite La, Lb, Lc.
  - by rewrite Ea, Eb, Ec.
Qed.

Lemma canonical_is_code (up : string) :
  is_code up →
  is_code (Geo.canonical up)
  ∧ Geo.canonical up ≠ "ANT" ∧ Geo.canonical up ≠ "KOS"
  ∧ Geo.canonical (Geo.canonical up) = Geo.canonical up.
Proof.
  intros Hup. unfold Geo.canonical, Geo.alias. simpl.
  destruct (decide ("ANT" = up)) as [<-|H1]; [by vm_compute|].
  destruct (decide ("KOS" = up)) as [<-|H2]; [by vm_compute|].
  simpl. by rewrite !decide_False by done.
Qed.

Lemma scan_Some (cs : list Geo.jsval) (code : string) :
  Geo.scan cs = Some code →
  ∃ s, Geo.three_letters s = true ∧ code = Geo.canonical (Geo.toUpperCase s).
Proof.
  induction cs as [|c cs IH]; simpl; [done|].
  destruct (negb (Geo.truthy c)); [done|].
  destruct (Geo.three_letters (Geo.trim (Geo.toString c))) eqn:Hs; [|done].
  intros [= <-]. eauto.
Qed.

Lemma featureIso3_is_code (f : Geo.feature) (code : string) :
  Geo.featureIso3 f = Some code →
  is_code code ∧ code ≠ "ANT" ∧ code ≠ "KOS" ∧ Geo.canonical code = code.
Proof.
  intros (s & Hs & ->)%scan_Some.
  by apply canonical_is_code, toUpperCase_is_code.
Qed.

(** X10: a code that the resolution returns is three upper-case
    letters, is never one of the aliased codes ANT and KOS, and is
    stable: a feature whose id is that code resolves to it again,
    whatever its properties. *)
Theorem X10_resolved_codes_are_canonical (f : Geo.feature) (code : string)
    (p : option Geo.props) :
  Geo.featureIso3 f = Some code →
  is_code code ∧ code ≠ "ANT" ∧ code ≠ "KOS"
  ∧ Geo.featureIso3 (Geo.Feature (Geo.JString code) p) = Some code.
Proof.
  intros (Hcode & H1 & H2 & Hcan)%featureIso3_is_code.
  split_and!; [done..|].
  destruct (is_code_fixed code Hcode) as (Htrim & Hthree & Hup).
  unfold Geo.featureIso3, Geo.candidates. cbn [Geo.scan Geo.id].
  assert (Geo.truthy (Geo.JString code) = true) as ->.
  { destruct code; [done|]. by vm_compute. }
  cbn [negb Geo.toString]. by rewrite Htrim, Hthree, Hup, Hcan.
Qed.

Lemma X10_resolved_codes_are_canonical_witness :
  Geo.featureIso3 (Geo.Feature (Geo.JString "NLD") None) = Some "NLD".
Proof.
  refine (proj2 (proj2 (proj2
    (X10_resolved_codes_are_canonical
       (Geo.Feature (Geo.JString " ant ") None) "NLD" None _)))).
  by vm_compute.
Defined.

(** X11: a numeric feature id, as in boundary files that number their
    features, never resolves: the code comes from the properties alone,
    and without any the feature has no entity. *)
Theorem X11_numeric_id_is_skipped (z : Z) (p : option Geo.props) :
  Geo.featureIso3 (Geo.Feature (Geo.JNumber z) p)
  = Geo.featureIso3 (Geo.Feature Geo.JUndefined p)
  ∧ Geo.featureIso3 (Geo.Feature (Geo.JNumber z) None) = None.
Proof.
  assert (∀ p', Geo.featureIso3 (Geo.Feature (Geo.JNumber z) p')
                = Geo.featureIso3 (Geo.Feature Geo.JUndefined p')) as Hskip.
  { intros p'. unfold Geo.featureIso3, Geo.candidates. cbn [Geo.scan Geo.id].
    destruct (negb (Geo.truthy (Geo.JNumber z))); [done|].
    cbn [Geo.toString].
    destruct (Geo.three_letters (Geo.trim (pretty z))) eqn:Hz; [|done].
    apply three_letters_not_printed in Hz.
    by rewrite all_chars_trim in Hz by apply pretty_Z_chars. }
  split; [apply Hskip|]. by rewrite Hskip.
Qed.

(** * Further properties of the view state *)

Lemma year_at_in_years (idx : Z) :
  (0 ≤ idx < 3)%Z → View.year_at idx ∈ years.
Proof.
  intros Hidx.
  assert (idx = 0 ∨ idx = 1 ∨ idx = 2)%Z as [-> |[-> | ->]] by lia;
    unfold View.year_at, years; simpl; rewrite !elem_of_cons; auto.
Qed.

Lemma fire_index (h : nat) (ts ts' : list (nat * Z)) (idx : Z) :
  View.fire h ts = Some (idx, ts') → (0 ≤ idx < 3)%Z.
Proof.
  revert ts'. induction ts as [|[h' i] ts IH]; intros ts'; simpl; [done|].
  destruct (decide (h' = h)).
  - intros [= <- _]. apply Z.mod_pos_bound. lia.
  - destruct (View.fire h ts) as [[i' ts'']|]; [|done].
    intros [= <- _]. by eapply IH.
Qed.

Lemma slider_value_in_years (y : Z) : slider_value y → y ∈ years.
Proof.
  unfold slider_value. simpl. intros [Hy Hmod].
  assert (y = 1990 ∨ y = 2000 ∨ y = 2010)%Z as [-> |[-> | ->]];
    [|unfold years; rewrite !elem_of_cons; auto..].
  Z.to_euclidean_division_equations. lia.
Qed.

Lemma step_year_in_years (w : View.world) (e : View.event) :
  View.year (View.state w) ∈ years → from_page e →
  View.year (View.state (View.step w e)) ∈ years.
Proof.
  intros Hw He. destruct e as [|h|y|b|v|f]; simpl; try done.
  - destruct (View.playing (View.state w)); [|done].
    unfold View.stopPlayback. by repeat case_match.
  - unfold View.tick.
    destruct (View.fire h (View.timers w)) as [[idx ts]|] eqn:Hf; [|done].
    simpl. eapply year_at_in_years, fire_index, Hf.
  - by apply slider_value_in_years.
  - by destruct (Geo.featureIso3 f).
Qed.

Lemma indexOf_from_found (l : list Z) (y i : Z) :
  y ∈ l → (i ≤ View.indexOf_from i l y)%Z.
Proof.
  revert i. induction l as [|x l IH]; intros i; [by intros ?%elem_of_nil|].
  simpl. destruct (Z.eqb_spec x y) as [_|Hne]; [lia|].
  intros [?|Hin]%elem_of_cons; [congruence|].
  specialize (IH (i + 1)%Z Hin). lia.
Qed.

(** X12: whatever the user does with the slider, the play button, the
    selectors and the map, and whenever the timer fires, [state.year]
    is one of the fixed years; so [startPlayback] always finds the year
    in the sequence and its fallback to index 0 is never taken. *)
Theorem X12_year_stays_in_sequence (es : list View.event) :
  Forall from_page es →
  View.year (View.state (View.run View.init es)) ∈ years
  ∧ (0 ≤ View.indexOf years
           (View.year (View.state (View.run View.init es))))%Z.
Proof.
  intros Hes.
  assert (View.year (View.state (View.run View.init es)) ∈ years) as Hy.
  { induction es as [|e es IH] using rev_ind.
    - unfold years. simpl. rewrite !elem_of_cons. auto.
    - apply Forall_app in Hes as [Hes [He _]%Forall_cons].
      unfold View.run. rewrite foldl_snoc.
      by apply step_year_in_years; [apply IH|]. }
  split; [done|]. by apply (indexOf_from_found years _ 0).
Qed.

Lemma X12_year_stays_in_sequence_witness :
  View.year
    (View.state
       (View.run View.init
          [View.YearInput 1990; View.PlayClick; View.Tick 1;
           View.YearInput 2010; View.Tick 1]))
  ∈ years.
Proof.
  refine (proj1 (X12_year_stays_in_sequence
    [View.YearInput 1990; View.PlayClick; View.Tick 1;
     View.YearInput 2010; View.Tick 1] _)).
  repeat constructor; simpl; unfold slider_value; simpl; lia.
Defined.

Lemma run_reachable (w : View.world) (es : list View.event) :
  View.reachable w → View.reachable (View.run w es).
Proof.
  intros Hw. induction es as [|e es IH] using rev_ind; [done|].
  unfold View.run. rewrite foldl_snoc. by constructor.
Qed.

(** X13: stopping takes effect at once: after the click that stops
    playback no interval is left, and no firing of any handle, however
    many, changes the page. *)
Theorem X13_no_tick_after_stop (w : View.world) (hs : list nat) :
  View.reachable w →
  View.playing (View.state w) = true →
  View.timers (View.step w View.PlayClick) = []
  ∧ View.run (View.step w View.PlayClick) (View.Tick <$> hs)
    = View.step w View.PlayClick.
Proof.
  intros Hr Hpl.
  pose proof (reachable_playback_inv _
                (View.reach_step w View.PlayClick Hr)) as [_ Hinv].
  assert (View.playing (View.state (View.step w View.PlayClick)) = false)
    as Hoff.
  { simpl. rewrite Hpl. unfold View.stopPlayback. by repeat case_match. }
  rewrite Hoff in Hinv. destruct Hinv as [_ Hts]. split; [done|].
  clear Hoff. generalize dependent (View.step w View.PlayClick).
  intros w1 Hts.
  induction hs as [|h hs IH] using rev_ind; [done|].
  rewrite fmap_app. unfold View.run in *. rewrite foldl_app, IH.
  change (View.tick h w1 = w1). unfold View.tick. by rewrite Hts.
Qed.

Lemma X13_no_tick_after_stop_witness :
  View.run (View.step (View.step View.init View.PlayClick) View.PlayClick)
           (View.Tick <$> [1; 1])%nat
  = View.step (View.step View.init View.PlayClick) View.PlayClick.
Proof.
  refine (proj2 (X13_no_tick_after_stop
    (View.step View.init View.PlayClick) [1; 1]%nat _ _)).
  - repeat constructor.
  - reflexivity.
Defined.

(** X14: pressing play and then pause brings the view state back to
    what it was, year, buffer, selection and overlay included, with no
    interval left behind. *)
Theorem X14_play_then_pause (w : View.world) :
  View.reachable w →
  View.playing (View.state w) = false →
  let w' := View.run w [View.PlayClick; View.PlayClick] in
  View.state w' = View.state w
  ∧ View.playTimer w' = None
  ∧ View.timers w' = [].
Proof.
  intros Hr Hpl w'.
  pose proof (reachable_playback_inv w Hr) as [Hnh Hinv].
  rewrite Hpl in Hinv. destruct Hinv as [Hpt Hts].
  destruct w as [[y b sel sp pl] pt ts nh]. simpl in *. subst.
  unfold w'. simpl. unfold View.stopPlayback. simpl.
  destruct nh as [|nh]; [lia|]. simpl.
  split_and!; [done|done|].
  unfold View.clearInterval. by rewrite filter_cons, decide_False by (simpl; auto).
Qed.

Lemma X14_play_then_pause_witness :
  View.state (View.run View.init [View.PlayClick; View.PlayClick])
  = View.state View.init.
Proof.
  refine (proj1 (X14_play_then_pause View.init _ _)).
  - constructor.
  - reflexivity.
Defined.

(** Only a click on a feature writes the selection. *)
Lemma step_selected (w : View.world) (e : View.event) :
  View.selectedIso3 (View.state (View.step w e))
  = match e with
    | View.CountryClick f =>
        match Geo.featureIso3 f with
        | Some c => Some c
        | None => View.selectedIso3 (View.state w)
        end
    | _ => View.selectedIso3 (View.state w)
    end.
Proof.
  destruct e as [|h|y|b|v|f]; simpl; try done.
  - destruct (View.playing (View.state w)); [|done].
    unfold View.stopPlayback. by destruct (View.playTimer w) as [[|?]|].
  - unfold View.tick. by destruct (View.fire h (View.timers w)) as [[??]|].
  - by destruct (Geo.featureIso3 f).
Qed.

Lemma selection_ok_step (w : View.world) (e : View.event) :
  selection_ok w → selection_ok (View.step w e).
Proof.
  unfold selection_ok. rewrite step_selected. intros Hw.
  destruct e as [|h|y|b|v|f]; try done.
  destruct (Geo.featureIso3 f) as [c|] eqn:Hf; [|done].
  apply featureIso3_is_code in Hf. tauto.
Qed.

Lemma selected_step (w : View.world) (e : View.event) :
  is_Some (View.selectedIso3 (View.state w)) →
  is_Some (View.selectedIso3 (View.state (View.step w e))).
Proof.
  rewrite step_selected. intros Hw. destruct e as [|h|y|b|v|f]; try done.
  destruct (Geo.featureIso3 f) as [c|]; [eauto|done].
Qed.

(** X15: in every state the page can reach, the selected entity is
    either none or a canonical three-letter code; a click on a feature
    that resolves to no code changes nothing; and once an entity is
    selected no event clears the selection. *)
Theorem X15_selection_is_a_code (w : View.world) (e : View.event)
    (f : Geo.feature) :
  View.reachable w →
  match View.selectedIso3 (View.state w) with
  | None => True
  | Some c => is_code c ∧ c ≠ "ANT" ∧ c ≠ "KOS"
  end
  ∧ (Geo.featureIso3 f = None → View.step w (View.CountryClick f) = w)
  ∧ (is_Some (View.selectedIso3 (View.state w)) →
     is_Some (View.selectedIso3 (View.state (View.step w e)))).
Proof.
  intros Hr. split_and!.
  - induction Hr as [|w e' _ IH]; [done|]. by apply selection_ok_step.
  - intros Hf. simpl. by rewrite Hf.
  - apply selected_step.
Qed.

Lemma X15_selection_is_a_code_witness :
  match
    View.selectedIso3
      (View.state
         (View.run View.init
            [View.CountryClick (Geo.Feature (Geo.JString "kos") None)]))
  with
  | None => True
  | Some c => is_code c ∧ c ≠ "ANT" ∧ c ≠ "KOS"
  end.
Proof.
  refine (proj1 (X15_selection_is_a_code
    (View.run View.init
       [View.CountryClick (Geo.Feature (Geo.JString "kos") None)])
    View.PlayClick (Geo.Feature Geo.JNull None) _)).
  repeat constructor.
Defined.

(** * Properties of the render-time reads *)

Lemma js_find_Some {A} (p : A → bool) (l : list A) (x : A) :
  js_find p l = Some x → x ∈ l ∧ p x = true.
Proof.
  induction l as [|y l IH]; simpl; [done|].
  destruct (p y) eqn:Hy.
  - intros [= <-]. split; [by left|done].
  - intros [??]%IH. split; [by right|done].
Qed.

Lemma js_find_None {A} (p : A → bool) (l : list A) :
  js_find p l = None ↔ ∀ x, x ∈ l → p x = false.
Proof.
  induction l as [|y l IH]; simpl.
  { split; [|done]. by intros _ x ?%elem_of_nil. }
  destruct (p y) eqn:Hy.
  - split; [done|]. intros Hall. rewrite Hall in Hy by left. done.
  - rewrite IH. split.
    + intros Hall x [-> |?]%elem_of_cons; auto.
    + intros Hall x ?. apply Hall. by right.
Qed.

Lemma js_find_unique {A} (p : A → bool) (l : list A) (x : A) :
  x ∈ l → p x = true → (∀ x', x' ∈ l → p x' = true → x' = x) →
  js_find p l = Some x.
Proof.
  intros Hx Hp Huniq.
  destruct (js_find p l) as [x'|] eqn:Hf.
  - apply js_find_Some in Hf as [??]. f_equal. by apply Huniq.
  - rewrite js_find_None in Hf. rewrite Hf in Hp by done. done.
Qed.

Lemma q_max_snoc (l : list Q) (x : Q) :
  q_max (l ++ [x])
  = match q_max l with
    | None => Some x
    | Some m => if Qltb m x then Some x else Some m
    end.
Proof. unfold q_max. rewrite foldl_snoc. by destruct (foldl _ _ _). Qed.

Lemma q_max_ge (l : list Q) (v : Q) :
  v ∈ l → ∃ m, q_max l = Some m ∧ (v <= m)%Q.
Proof.
  induction l as [|x l IH] using rev_ind; [by intros ?%elem_of_nil|].
  rewrite elem_of_snoc, q_max_snoc. intros Hv.
  destruct (q_max l) as [m|] eqn:Hm.
  - destruct (Qltb m x) eqn:Hlt.
    + apply Qltb_lt in Hlt. exists x. split; [done|].
      destruct Hv as [Hv| ->]; [|apply Qle_refl].
      destruct (IH Hv) as (m' & [= <-] & Hle).
      apply Qle_trans with m; [done|]. by apply Qlt_le_weak.
    + exists m. split; [done|].
      destruct Hv as [Hv| ->].
      * by destruct (IH Hv) as (m' & [= <-] & Hle).
      * apply Qnot_lt_le. intros Hlt'%Qltb_lt. congruence.
  - exists x. split; [done|].
    destruct Hv as [Hv| ->]; [|apply Qle_refl].
    by destruct (IH Hv) as (m' & ? & _).
Qed.

Lemma q_or_one_bound (m v : Q) :
  (v <= m)%Q → (v <= q_or_one (Some m))%Q ∧ ¬ (q_or_one (Some m) == 0)%Q.
Proof.
  intros Hv. unfold q_or_one. destruct (Qeq_bool m 0) eqn:Hm.
  - apply Qeq_bool_iff in Hm. split; [|done].
    apply Qle_trans with m; [done|]. rewrite Hm. done.
  - split; [done|]. by apply Qeq_bool_neq.
Qed.

Lemma z_max_snoc (l : list Z) (x : Z) :
  z_max (l ++ [x])
  = match z_max l with
    | None => Some x
    | Some m => if (m <? x)%Z then Some x else Some m
    end.
Proof. unfold z_max. rewrite foldl_snoc. by destruct (foldl _ _ _). Qed.

Lemma z_max_ge (l : list Z) (v : Z) :
  v ∈ l → ∃ m, z_max l = Some m ∧ (v ≤ m)%Z.
Proof.
  induction l as [|x l IH] using rev_ind; [by intros ?%elem_of_nil|].
  rewrite elem_of_snoc, z_max_snoc. intros Hv.
  destruct (z_max l) as [m|] eqn:Hm.
  - destruct (Z.ltb_spec m x).
    + exists x. split; [done|]. destruct Hv as [Hv| ->]; [|lia].
      destruct (IH Hv) as (m' & [= <-] & Hle). lia.
    + exists m. split; [done|]. destruct Hv as [Hv| ->]; [|lia].
      by destruct (IH Hv) as (m' & [= <-] & Hle).
  - exists x. split; [done|]. destruct Hv as [Hv| ->]; [|lia].
    by destruct (IH Hv) as (m' & ? & _).
Qed.

Lemma deltaAt_bound (raw : list row) (iso : string) (y b z : Z) :
  deltaAt (loadData raw) iso y b = Some z →
  (0 ≤ z ≤ maxDeltaPeople (loadData raw) b)%Z.
Proof.
  intros Hz. split; [by eapply stored_delta_nonneg|].
  pose proof (max_inv_log (delta_log (countryRows (loadData raw))) b) as Hinv.
  rewrite <- build_deltas_log in Hinv.
  apply deltaAt_Some, delta_log_lookup_inv in Hz as (e & He & [= _ _ Hb] & Hd).
  unfold maxDeltaPeople.
  change (maxDeltaByBuffer (deltaIndex (loadData raw)))
    with (maxDeltaByBuffer (build_deltas (countryRows (loadData raw)))).
  destruct (maxDeltaByBuffer _ !! b) as [v|].
  - destruct Hinv as (Hv & _ & Hmax).
    destruct (Z.eqb_spec v 0) as [?|_]; [lia|]. by eapply Hmax.
  - specialize (Hinv e z He Hb Hd). lia.
Qed.

Lemma baseline_fill_domain (raw : list row) (y b : Z) (f : Geo.feature)
    (v m : Q) :
  baseline_fill (loadData raw) y b f = Scaled v m →
  (v <= m)%Q ∧ ¬ (m == 0)%Q.
Proof.
  unfold baseline_fill.
  set (l := omap pct_near (rank_subset (countryRows (loadData raw)) y b)).
  destruct (Geo.featureIso3 f) as [iso|]; [|done].
  destruct (exposureByKey (loadData raw) !! keyExposure iso y b)
    as [r|] eqn:Hr; [|done].
  destruct (pct_near r) as [pct|] eqn:Hp; [|done].
  intros [= <- <-].
  apply build_exposureByKey_inv in Hr as [Hin Hk].
  apply keyExposure_inj in Hk as (_ & Hy & Hb).
  destruct (q_max_ge l pct) as (mx & -> & Hle).
  { apply list_elem_of_omap. exists r. split; [|done].
    apply rank_subset_elem. by rewrite Hp. }
  by apply q_or_one_bound.
Qed.

Lemma change_fill_domain (raw : list row) (y b : Z) (f : Geo.feature)
    (v m : Q) :
  change_fill (loadData raw) y b f = Scaled v m →
  (0 < v)%Q ∧ (v <= m)%Q ∧ ¬ (m == 0)%Q.
Proof.
  unfold change_fill.
  destruct (Geo.featureIso3 f) as [iso|]; [|done].
  destruct (deltaAt (loadData raw) iso y b) as [z|] eqn:Hz; [|done].
  destruct (Z.leb_spec z 0); [done|]. intros [= <- <-].
  apply deltaAt_bound in Hz.
  unfold millions, Qlt, Qle, Qeq. simpl. lia.
Qed.

Lemma baseline_fill_row (raw : list row) (y b : Z) (f : Geo.feature)
    (v m : Q) :
  baseline_fill (loadData raw) y b f = Scaled v m →
  ∃ r, r ∈ raw ∧ pct_near r = Some v.
Proof.
  unfold baseline_fill.
  destruct (Geo.featureIso3 f) as [iso|]; [|done].
  destruct (exposureByKey (loadData raw) !! keyExposure iso y b)
    as [r|] eqn:Hr; [|done].
  destruct (pct_near r) as [pct|] eqn:Hp; [|done].
  intros [= <- <-].
  apply build_exposureByKey_inv in Hr as [[_ Hin]%keep_buffers_elem _].
  eauto.
Qed.

Lemma baseline_fill_within (raw : list row) (y b : Z) (f : Geo.feature)
    (v m : Q) :
  Forall (λ r, ∀ p, pct_near r = Some p → (0 <= p)%Q) raw →
  baseline_fill (loadData raw) y b f = Scaled v m →
  (0 <= v)%Q ∧ (v <= m)%Q ∧ (0 < m)%Q.
Proof.
  intros Hpos Hfill.
  destruct (baseline_fill_domain raw y b f v m Hfill) as [Hle Hm].
  destruct (baseline_fill_row raw y b f v m Hfill) as (r & Hr & Hp).
  rewrite Forall_forall in Hpos. pose proof (Hpos r Hr v Hp) as Hv.
  split_and!; [done..|].
  destruct (Qle_lt_or_eq 0 m) as [?|Heq]; [by eapply Qle_trans|done|].
  destruct Hm. by symmetry.
Qed.

(** X16: in the change view the value [renderMapFills] hands to the
    colour scale is strictly positive and at most the upper end of the
    scale's domain.  In the baseline view (the only view of
    [src/main.js]) the value never exceeds the upper end, which is never
    0; a negative share in the table is handed on as it is, and when no
    share of the table is negative the value lies within the domain, from
    0 to an upper end above 0. *)
Theorem X16_fill_within_scale_domain (raw : list row) (st : View.State)
    (f : Geo.feature) (v m : Q) :
  (renderMapFills (loadData raw) st f = Scaled v m →
   (v <= m)%Q ∧ ¬ (m == 0)%Q
   ∧ (View.year st ≠ 1990%Z → (0 < v)%Q ∧ (0 < m)%Q))
  ∧ (renderMapFills_main (loadData raw) st f = Scaled v m →
     (v <= m)%Q ∧ ¬ (m == 0)%Q ∧ ∃ r, r ∈ raw ∧ pct_near r = Some v)
  ∧ (Forall (λ r, ∀ p, pct_near r = Some p → (0 <= p)%Q) raw →
     (renderMapFills (loadData raw) st f = Scaled v m →
      (0 <= v)%Q ∧ (v <= m)%Q ∧ (0 < m)%Q)
     ∧ (renderMapFills_main (loadData raw) st f = Scaled v m →
        (0 <= v)%Q ∧ (v <= m)%Q ∧ (0 < m)%Q)).
Proof.
  assert (renderMapFills (loadData raw) st f = Scaled v m →
          View.year st ≠ 1990%Z → (0 < v)%Q ∧ (v <= m)%Q ∧ (0 < m)%Q)
    as Hchange.
  { unfold renderMapFills. destruct (Z.eqb_spec (View.year st) 1990); [done|].
    intros (? & ? & ?)%change_fill_domain _. split_and!; [done..|].
    by eapply Qlt_le_trans. }
  split_and!.
  - intros Hfill. unfold renderMapFills in *.
    destruct (Z.eqb_spec (View.year st) 1990) as [Hy|Hy].
    + apply baseline_fill_domain in Hfill as [??]. done.
    + pose proof Hfill as (? & ? & ?)%change_fill_domain.
      split_and!; [done..|]. intros _. split; [done|].
      by eapply Qlt_le_trans.
  - intros Hfill. unfold renderMapFills_main in Hfill.
    destruct (baseline_fill_domain _ _ _ _ _ _ Hfill) as [??].
    split_and!; [done..|]. by eapply baseline_fill_row.
  - intros Hpos. split.
    + intros Hfill.
      destruct (decide (View.year st = 1990%Z)) as [Hy|Hy].
      * unfold renderMapFills in Hfill.
        rewrite (proj2 (Z.eqb_eq _ _) Hy) in Hfill.
        by eapply baseline_fill_within.
      * destruct (Hchange Hfill Hy) as (? & ? & ?).
        split_and!; [by apply Qlt_le_weak|done..].
    + apply baseline_fill_within. done.
Qed.

Lemma X16_fill_within_scale_domain_witness :
  (0 <= 17 # 1)%Q ∧ (17 # 1 <= 17 # 1)%Q ∧ (0 < 17 # 1)%Q.
Proof.
  refine (proj2 (proj2 (proj2 (X16_fill_within_scale_domain demo_rows
    (View.MkState 2000 30 None false false)
    (Geo.Feature (Geo.JString "fra") None) (17 # 1) (17 # 1))) _) _).
  - unfold demo_rows. repeat constructor; intros p [= <-]; done.
  - by vm_compute.
Defined.

Lemma NoDup_fmap_elem_inj {A B} (f : A → B) (l : list A) (x y : A) :
  NoDup (f <$> l) → x ∈ l → y ∈ l → f x = f y → x = y.
Proof.
  intros Hnd [i Hi]%list_elem_of_lookup [j Hj]%list_elem_of_lookup Hf.
  assert (i = j) as ->; [|congruence].
  eapply NoDup_lookup; [done|..]; rewrite list_lookup_fmap.
  - by rewrite Hi.
  - rewrite Hj. simpl. by rewrite Hf.
Qed.

Lemma build_exposureByKey_miss (rows : list row) (iso : string) (y b : Z) :
  (∀ r, r ∈ rows → key3 r ≠ (iso, y, b)) →
  build_exposureByKey rows !! keyExposure iso y b = None.
Proof.
  intros Hall.
  destruct (build_exposureByKey rows !! keyExposure iso y b) as [r|] eqn:Hr;
    [|done].
  apply build_exposureByKey_inv in Hr as [Hin Hk].
  apply keyExposure_inj in Hk as (-> & -> & ->). by destruct (Hall r Hin).
Qed.

Lemma group_get_iso3 (rows : list row) (iso : string) :
  group_get iso (group iso3 rows)
  = if decide (iso ∈ group_keys iso3 rows)
    then Some (filter (λ r, iso3 r = iso) rows) else None.
Proof. unfold group. apply group_get_fmap. Qed.

Lemma detail_bars_buffers (rows : list row) (y : Z) :
  bar_buffer <$> detail_bars rows y = buffers.
Proof.
  unfold detail_bars. rewrite <- list_fmap_compose.
  rewrite <- (list_fmap_id buffers) at 2. apply list_fmap_ext.
  intros i b _. simpl. by destruct (js_find _ _).
Qed.

Lemma detail_bars_elem (rows : list row) (y : Z) (x : bar) :
  x ∈ detail_bars rows y ↔
  bar_buffer x ∈ buffers
  ∧ x = match js_find (λ d, bool_decide (buffer_km d = bar_buffer x))
                      (filter (λ d, year d = y) rows) with
        | Some r => Bar (bar_buffer x) (pct_near r) (pop_near r) (num_plants r)
        | None => Bar (bar_buffer x) (Some 0%Q) (Some (Fin 0)) (Some 0%Z)
        end.
Proof.
  unfold detail_bars. rewrite list_elem_of_fmap. split.
  - intros (b & -> & Hb).
    assert (bar_buffer
              match js_find (λ d, bool_decide (buffer_km d = b))
                            (filter (λ d, year d = y) rows) with
              | Some r => Bar b (pct_near r) (pop_near r) (num_plants r)
              | None => Bar b (Some 0%Q) (Some (Fin 0)) (Some 0%Z)
              end = b) as -> by by destruct (js_find _ _).
    done.
  - intros [Hb Hx]. by exists (bar_buffer x).
Qed.

Lemma detail_bars_current (rows : list row) (y b : Z) :
  b ∈ buffers →
  ∃ x, js_find (λ x, bool_decide (bar_buffer x = b)) (detail_bars rows y)
       = Some x
       ∧ x ∈ detail_bars rows y ∧ bar_buffer x = b.
Proof.
  intros Hb.
  destruct (js_find (λ x, bool_decide (bar_buffer x = b)) (detail_bars rows y))
    as [x|] eqn:Hf.
  - apply js_find_Some in Hf as [Hx Hp%bool_decide_eq_true]. eauto.
  - rewrite js_find_None in Hf.
    rewrite <- (detail_bars_buffers rows y) in Hb.
    apply list_elem_of_fmap in Hb as (x & -> & Hx).
    specialize (Hf x Hx). by apply bool_decide_eq_false in Hf.
Qed.

(** X17: the detail panel shows its prompt exactly when nothing is
    selected or the selection has no filtered row; otherwise it works
    from all the rows of the entity, the entity's name is defined (the
    group read at index 0 is never empty), and there is one bar per
    buffer of the fixed set, in that order, the current one being found
    exactly when [state.buffer] is in the set. *)
Theorem X17_detail_panel_shape (raw : list row) (st : View.State) :
  let d := loadData raw in
  (renderDetail d st = None ↔
   ∀ iso, View.selectedIso3 st = Some iso →
          iso = EmptyString ∨ ∀ r, r ∈ countryRows d → iso3 r ≠ iso)
  ∧ (∀ v, renderDetail d st = Some v →
          ∃ iso, View.selectedIso3 st = Some iso
                 ∧ detail_rows v = filter (λ r, iso3 r = iso) (countryRows d)
                 ∧ is_Some (detail_name v)
                 ∧ bar_buffer <$> detail_data v = buffers
                 ∧ (is_Some (detail_current v st)
                    ↔ View.buffer st ∈ buffers)).
Proof.
  intros d. unfold renderDetail.
  change (exposuresByCountry d) with (group iso3 (countryRows d)).
  destruct (View.selectedIso3 st) as [iso|]; [|by split].
  rewrite group_get_iso3.
  destruct (decide (iso = EmptyString)) as [->|Hne].
  { split; [|done]. split; [|done]. intros _ iso' [= <-]. by left. }
  destruct (decide (iso ∈ group_keys iso3 (countryRows d))) as [Hin|Hout].
  - apply group_keys_elem in Hin as (r & Hr & Hiso). split.
    + split; [done|]. intros Hall.
      destruct (Hall iso eq_refl) as [?|Hnone]; [done|].
      by destruct (Hnone r Hr).
    + intros v [= <-]. exists iso. cbn [detail_rows detail_name detail_data].
      split_and!; [done|done| | |].
      * assert (r ∈ filter (λ r, iso3 r = iso) (countryRows d)) as Hrf
          by by apply list_elem_of_filter.
        destruct (filter _ _) as [|r0 rs']; [by apply elem_of_nil in Hrf|].
        simpl. eauto.
      * apply detail_bars_buffers.
      * unfold detail_current. cbn [detail_data]. split.
        -- intros [x [Hx Hb%bool_decide_eq_true]%js_find_Some].
           rewrite <- Hb. by apply detail_bars_elem in Hx as [? _].
        -- intros Hb.
           destruct (detail_bars_current
             (filter (λ r, iso3 r = iso) (countryRows d)) (View.year st)
             (View.buffer st) Hb) as (x & Hx & _).
           exists x. exact Hx.
  - split; [|done]. split; [|done]. intros _ iso' [= <-]. right.
    intros r Hr Hiso. apply Hout, group_keys_elem. eauto.
Qed.

(** X18: with unique triples each bar of the detail panel agrees with
    the point index at the bar's (entity, year, buffer) key: it carries
    the fields of the record stored there, and zeros where the index has
    no record. *)
Theorem X18_detail_bars_match_point_index (raw : list row) (st : View.State)
    (v : detail) (x : bar) :
  NoDup (key3 <$> countryRows (loadData raw)) →
  renderDetail (loadData raw) st = Some v →
  x ∈ detail_data v →
  ∃ iso,
    View.selectedIso3 st = Some iso
    ∧ x = match exposureByKey (loadData raw)
                  !! keyExposure iso (View.year st) (bar_buffer x) with
          | Some r =>
              Bar (bar_buffer x) (pct_near r) (pop_near r) (num_plants r)
          | None => Bar (bar_buffer x) (Some 0%Q) (Some (Fin 0)) (Some 0%Z)
          end.
Proof.
  intros Hnd. set (d := loadData raw). unfold renderDetail.
  change (exposuresByCountry d) with (group iso3 (countryRows d)).
  change (exposureByKey d) with (build_exposureByKey (countryRows d)).
  destruct (View.selectedIso3 st) as [iso|]; [|done].
  rewrite group_get_iso3.
  destruct (decide (iso = EmptyString)); [done|].
  destruct (decide (iso ∈ group_keys iso3 (countryRows d))); [|done].
  intros [= <-]. cbn [detail_data]. intros [Hb Hx]%detail_bars_elem.
  exists iso. split; [done|]. rewrite Hx at 1.
  destruct (js_find _ _) as [r|] eqn:Hf.
  - apply js_find_Some in Hf as [Hr Hrb%bool_decide_eq_true].
    apply list_elem_of_filter in Hr as [Hy Hr].
    apply list_elem_of_filter in Hr as [Hi Hr].
    rewrite <- Hi, <- Hy, <- Hrb.
    rewrite (build_exposureByKey_lookup (countryRows d) r Hr); [done|].
    intros r' Hr' Hk. by apply (NoDup_fmap_elem_inj key3 (countryRows d)).
  - rewrite js_find_None in Hf.
    rewrite build_exposureByKey_miss; [done|].
    intros r Hr [= Hi Hy Hrb].
    specialize (Hf r). rewrite bool_decide_eq_false in Hf. apply Hf; [|done].
    by rewrite !list_elem_of_filter.
Qed.

Lemma X18_detail_bars_match_point_index_witness :
  ∃ iso,
    Some "USA" = Some iso
    ∧ Bar 30 (Some (18 # 1)%Q) (Some (Fin 4000000)) (Some 9%Z)
      = match exposureByKey (loadData demo_rows)
                !! keyExposure iso 2010
                     (bar_buffer (Bar 30 (Some (18 # 1)%Q)
                                      (Some (Fin 4000000)) (Some 9%Z))) with
        | Some r =>
            Bar 30 (pct_near r) (pop_near r) (num_plants r)
        | None => Bar 30 (Some 0%Q) (Some (Fin 0)) (Some 0%Z)
        end.
Proof.
  refine (X18_detail_bars_match_point_index demo_rows
    (View.MkState 2010 30 (Some "USA") false false) _
    (Bar 30 (Some (18 # 1)%Q) (Some (Fin 4000000)) (Some 9%Z))
    demo_rows_unique _ _).
  - by vm_compute.
  - simpl. left.
Defined.

(** X19: on complete data (unique triples, every year in the fixed
    sequence), when the selected entity has a record at the current year
    and buffer and one for the decade before, both with a population,
    the delta the map colours is their difference clipped at 0; the
    detail panel computes the same difference for its narrative when the
    current record has a share, and when that share is null it throws at
    the share's [toFixed(1)] before it reaches the change. *)
Theorem X19_narrative_change_matches_map (raw : list row) (st : View.State)
    (iso : string) (p r : row) (a c : Z) :
  NoDup (key3 <$> countryRows (loadData raw)) →
  Forall (λ d, year d ∈ years) (countryRows (loadData raw)) →
  View.selectedIso3 st = Some iso → iso ≠ EmptyString →
  View.year st ≠ 1990%Z →
  p ∈ countryRows (loadData raw) → r ∈ countryRows (loadData raw) →
  key3 p = (iso, (View.year st - 10)%Z, View.buffer st) →
  key3 r = (iso, View.year st, View.buffer st) →
  pop_near r = Some (Fin a) → pop_near p = Some (Fin c) →
  ∃ v, renderDetail (loadData raw) st = Some v
       ∧ detail_deltaPeople v st
         = match pct_near r with
           | Some _ => Returns (Some (Fin (a - c)))
           | None => Throws
           end
       ∧ deltaAt (loadData raw) iso (View.year st) (View.buffer st)
         = Some (Z.max 0 (a - c)).
Proof.
  intros Hnd Hyears Hsel Hiso H1990 Hp Hr Hkp Hkr Ha Hc.
  set (d := loadData raw) in *.
  remember (filter (λ r, iso3 r = iso) (countryRows d)) as rs eqn:Hrs.
  assert (∀ x, x ∈ rs ↔ iso3 x = iso ∧ x ∈ countryRows d) as Hrs_elem.
  { intros x. by rewrite Hrs, list_elem_of_filter. }
  injection Hkp as Hpi Hpy Hpb. injection Hkr as Hri Hry Hrb.
  assert (View.buffer st ∈ buffers) as Hb.
  { apply keep_buffers_elem in Hr as [Hr _]. by rewrite Hrb in Hr. }
  assert (View.year st ∈ [2000; 2010]%Z) as Hy.
  { rewrite Forall_forall in Hyears. specialize (Hyears r Hr).
    rewrite Hry in Hyears. unfold years in Hyears.
    rewrite !elem_of_cons in Hyears. rewrite !elem_of_cons.
    destruct Hyears as [?|[?|[?|[]%elem_of_nil]]]; [done|auto..]. }
  assert (∀ x y : row, x ∈ countryRows d → y ∈ countryRows d →
            key3 x = key3 y → x = y) as Huniq.
  { intros x y Hx Hy'. by apply (NoDup_fmap_elem_inj key3 (countryRows d)). }
  exists (Detail rs (country <$> head rs) (detail_bars rs (View.year st))).
  split_and!.
  - unfold renderDetail. rewrite Hsel, decide_False by done.
    change (exposuresByCountry d) with (group iso3 (countryRows d)).
    rewrite group_get_iso3, decide_True; [by rewrite Hrs|].
    apply group_keys_elem. eauto.
  - unfold detail_deltaPeople, detail_current.
    cbn [detail_data detail_rows].
    destruct (detail_bars_current rs (View.year st) (View.buffer st) Hb)
      as (x & -> & [_ Hx]%detail_bars_elem & Hxb).
    rewrite Hxb in Hx.
    rewrite (js_find_unique _ _ r) in Hx.
    + rewrite Hx. cbn [bar_pct bar_pop].
      destruct (pct_near r) as [s|]; [|done].
      destruct (Z.eqb_spec (View.year st) 1990) as [?|_]; [done|].
      rewrite (js_find_unique _ _ p).
      * simpl. by rewrite Ha, Hc.
      * by apply Hrs_elem.
      * rewrite Hpy, Hpb. by rewrite !bool_decide_eq_true_2.
      * intros p' [Hpi' Hp']%Hrs_elem
          [Hy'%bool_decide_eq_true Hb'%bool_decide_eq_true]%andb_true_iff.
        apply Huniq; [done..|]. unfold key3. congruence.
    + apply list_elem_of_filter. split; [done|]. by apply Hrs_elem.
    + by apply bool_decide_eq_true.
    + intros r' [Hy' [Hi' Hr']%Hrs_elem]%list_elem_of_filter
        Hb'%bool_decide_eq_true.
      apply Huniq; [done..|]. unfold key3. congruence.
  - destruct (stored_delta_fixed_years raw iso (View.buffer st) Hnd Hyears)
      as (_ & Hnext & _).
    apply (Hnext (View.year st) p r a c); try done.
    + unfold key3. by rewrite Hpi, Hpy, Hpb.
    + unfold key3. by rewrite Hri, Hry, Hrb.
Qed.

Lemma X19_narrative_change_matches_map_witness :
  ∃ v, renderDetail (loadData demo_rows)
         (View.MkState 2010 30 (Some "USA") false false) = Some v
       ∧ detail_deltaPeople v (View.MkState 2010 30 (Some "USA") false false)
         = Returns (Some (Fin (4000000 - 5000000)))
       ∧ deltaAt (loadData demo_rows) "USA" 2010 30
         = Some (Z.max 0 (4000000 - 5000000)).
Proof.
  refine (X19_narrative_change_matches_map demo_rows
    (View.MkState 2010 30 (Some "USA") false false) "USA"
    (Row "USA" "United States" 2000 30 (Some (5 # 2)%Q)
         (Some (Fin 5000000)) (Some 9%Z))
    (Row "USA" "United States" 2010 30 (Some (18 # 1)%Q)
         (Some (Fin 4000000)) (Some 9%Z))
    4000000 5000000 demo_rows_unique _ eq_refl _ _ _ _ eq_refl eq_refl
    eq_refl eq_refl).
  - rewrite demo_rows_loaded. simpl. unfold years.
    repeat constructor; rewrite !elem_of_cons; auto.
  - done.
  - done.
  - rewrite demo_rows_loaded. simpl. rewrite !elem_of_cons. auto 10.
  - rewrite demo_rows_loaded. simpl. rewrite !elem_of_cons. auto 10.
Defined.

Lemma yearKey_inj (b1 y1 b2 y2 : Z) :
  yearKey b1 y1 = yearKey b2 y2 → b1 = b2 ∧ y1 = y2.
Proof.
  unfold yearKey. intros E%(inj (String.app "pop")).
  apply split_last_sep in E as [Eb Ey]; auto using pretty_Z_no_sep.
  split; by apply (inj pretty).
Qed.

(** X20: the population column read for the plant overlay names its
    (buffer, year) pair without ambiguity; nothing is drawn while the
    overlay is off; while it is on the circles are exactly the plants
    whose column holds a value, in table order, and the value given to
    the radius scale never exceeds the upper end of its domain, which is
    never 0. *)
Theorem X20_plant_overlay (plantRows : list plantRow) (st : View.State)
    (b1 y1 b2 y2 : Z) :
  (yearKey b1 y1 = yearKey b2 y2 ↔ (b1, y1) = (b2, y2))
  ∧ (View.showPlants st = false → renderPlants plantRows st = [])
  ∧ (View.showPlants st = true →
     (renderPlants plantRows st).*1.*1
     = filter (λ d, plant_pop (yearKey (View.buffer st) (View.year st)) d
                    ≠ None) plantRows)
  ∧ (∀ d v m, (d, v, m) ∈ renderPlants plantRows st →
              d ∈ plantRows
              ∧ plant_pops d !! yearKey (View.buffer st) (View.year st)
                = Some (Some v)
              ∧ (v ≤ m)%Z ∧ m ≠ 0%Z).
Proof.
  split_and!.
  - split; [by intros [-> ->]%yearKey_inj|by intros [= -> ->]].
  - unfold renderPlants. by intros ->.
  - unfold renderPlants. intros ->. simpl.
    induction plantRows as [|d ps IH]; [done|].
    rewrite filter_cons.
    destruct (decide (plant_pop _ d ≠ None)) as [Hd|Hd]; [|done].
    generalize (z_or_one (z_max (omap
      (plant_pop (yearKey (View.buffer st) (View.year st)))
      (d :: filter (λ d, plant_pop
         (yearKey (View.buffer st) (View.year st)) d ≠ None) ps)))).
    intros m. simpl.
    destruct (plant_pop (yearKey (View.buffer st) (View.year st)) d)
      as [v|] eqn:Hv; [|done].
    simpl. f_equal.
    clear IH. induction ps as [|d' ps IH]; [done|].
    rewrite filter_cons.
    destruct (decide (plant_pop _ d' ≠ None)) as [Hd'|Hd']; [|done].
    simpl.
    destruct (plant_pop (yearKey (View.buffer st) (View.year st)) d')
      as [v'|] eqn:Hv'; [|done].
    simpl. by rewrite IH.
  - intros d v m. unfold renderPlants.
    destruct (View.showPlants st); simpl; [|by intros ?%elem_of_nil].
    set (k := yearKey (View.buffer st) (View.year st)).
    set (rows := filter (λ d, plant_pop k d ≠ None) plantRows).
    intros (d' & Hd' & Hin)%list_elem_of_omap.
    destruct (plant_pop k d') as [v'|] eqn:Hv; [|done].
    simpl in Hin. injection Hin as -> -> <-.
    apply list_elem_of_filter in Hd' as Hd. destruct Hd as [_ Hd].
    split_and!; [done| | |].
    + unfold plant_pop in Hv.
      by destruct (plant_pops d !! k) as [[?|]|]; simplify_eq/=.
    + destruct (z_max_ge (omap (plant_pop k) rows) v) as (mx & -> & Hle).
      { apply list_elem_of_omap. eauto. }
      unfold z_or_one. destruct (Z.eqb_spec mx 0); lia.
    + unfold z_or_one. destruct (z_max _) as [mx|]; [|done].
      by destruct (Z.eqb_spec mx 0).
Qed.

(** X21: with unique triples the point index does not depend on the
    order in which the rows were loaded: two tables with the same rows
    in different orders give the same index. *)
Theorem X21_point_index_ignores_row_order (raw1 raw2 : list row) :
  raw1 ≡ₚ raw2 →
  NoDup (key3 <$> countryRows (loadData raw1)) →
  exposureByKey (loadData raw1) = exposureByKey (loadData raw2).
Proof.
  intros Hperm Hnd1.
  change (exposureByKey (loadData raw1))
    with (build_exposureByKey (keep_buffers raw1)).
  change (exposureByKey (loadData raw2))
    with (build_exposureByKey (keep_buffers raw2)).
  change (countryRows (loadData raw1)) with (keep_buffers raw1) in Hnd1.
  assert (keep_buffers raw1 ≡ₚ keep_buffers raw2) as Hrows.
  { unfold keep_buffers. by rewrite Hperm. }
  assert (NoDup (key3 <$> keep_buffers raw2)) as Hnd2 by by rewrite <- Hrows.
  assert (∀ l1 l2 k r, l1 ≡ₚ l2 → NoDup (key3 <$> l2) →
            build_exposureByKey l1 !! k = Some r →
            build_exposureByKey l2 !! k = Some r) as Hsub.
  { intros l1 l2 k r Hl Hnd [Hr ->]%build_exposureByKey_inv.
    rewrite Hl in Hr. apply build_exposureByKey_lookup; [done|].
    intros r' Hr' Hk. by apply (NoDup_fmap_elem_inj key3 l2). }
  apply map_eq. intros k.
  destruct (build_exposureByKey (keep_buffers raw1) !! k) as [r|] eqn:H1.
  - symmetry. by apply (Hsub _ _ k r Hrows).
  - destruct (build_exposureByKey (keep_buffers raw2) !! k) as [r|] eqn:H2;
      [|done].
    symmetry in Hrows. apply (Hsub _ _ k r Hrows Hnd1) in H2. congruence.
Qed.

Lemma X21_point_index_ignores_row_order_witness :
  exposureByKey (loadData demo_rows) = exposureByKey (loadData (reverse demo_rows)).
Proof.
  apply X21_point_index_ignores_row_order.
  - by rewrite reverse_Permutation.
  - exact demo_rows_unique.
Defined.
